(** * InstanceQueue: the per-instance payload queue of the inference core

    A shallow embedding of [src/instance_queue.cc] (namespace
    [triton::core]) and the properties of its delay-triggered batch merge.

    The embedding is sequential.  The queue itself is documented as
    externally serialised, and contention between threads is outside the
    embedding: a [std::lock_guard] whose mutex no guard of the same call
    holds finds it free, and its scope is the identity on the state.  One
    guard is kept, because it can meet a mutex of its own call: the guard
    of line 81 is taken while the guard of line 65 still holds the exec
    mutex of the payload being dispatched.  When the front of the queue is
    that same payload, the thread asks for a [std::mutex] it owns, which is
    undefined and in practice never returns. *)

From Stdlib Require Import ZArith List Bool Lia.
Import ListNotations.
Local Open Scope Z_scope.

(** ** Machine integers

    [uint64_t] and [size_t] values are integers in [0, 2^64); arithmetic on
    them is reduced modulo [2^64].  [int] is a signed 32-bit integer whose
    overflow is undefined. *)

Definition UINT64_MOD : Z := 2 ^ 64.

Definition to_uint64 (z : Z) : Z := z mod UINT64_MOD.

Definition uint64_sub (a b : Z) : Z := to_uint64 (a - b).

Definition size_t_add (a b : Z) : Z := to_uint64 (a + b).

Definition INT_MAX : Z := 2 ^ 31 - 1.

Definition INT_MIN : Z := - 2 ^ 31.

(** ** Payload *)

(** Modelled from the spec: the lifecycle states of [Payload::State]; the
    class [Payload] is declared in [payload.h], which is not part of the
    sources.  The spec names QUEUED, EXECUTING and the terminal states owned
    by the executor. *)
Inductive PayloadState : Type :=
  | QUEUED
  | EXECUTING
  | TERMINAL.

(** Modelled from the spec: the data of a [Payload] that the queue reads or
    writes.  [batch_size_] and [batcher_start_ns_] are read through
    accessors that return [size_t] and [uint64_t]. *)
Record Payload : Type := mkPayload {
  state_ : PayloadState;
  batch_size_ : Z;
  saturated_ : bool;
  batcher_start_ns_ : Z
}.

(** A [std::shared_ptr<Payload>] is the address of a live payload; the
    payloads themselves live in a store shared by the queue, the producer
    and the consumer. *)
Definition ptr : Type := nat.

Definition Store : Type := ptr -> Payload.

Definition store_set (h : Store) (a : ptr) (v : Payload) : Store :=
  fun x => if Nat.eqb x a then v else h x.

Definition with_state (r : Payload) (s : PayloadState) : Payload :=
  mkPayload s (batch_size_ r) (saturated_ r) (batcher_start_ns_ r).

Definition with_batch_size (r : Payload) (n : Z) : Payload :=
  mkPayload (state_ r) n (saturated_ r) (batcher_start_ns_ r).

(** Modelled from the spec: [Payload::GetState], the read of the lifecycle
    state. *)
Definition GetState (h : Store) (a : ptr) : PayloadState := state_ (h a).

(** Modelled from the spec: [Payload::SetState], which writes the lifecycle
    state and nothing else. *)
Definition SetState (h : Store) (a : ptr) (s : PayloadState) : Store :=
  store_set h a (with_state (h a) s).

(** Modelled from the spec: [Payload::BatchSize], the capacity the payload
    occupies, assigned to a [size_t] by its caller. *)
Definition BatchSize (h : Store) (a : ptr) : Z :=
  to_uint64 (batch_size_ (h a)).

(** Modelled from the spec: [Payload::IsSaturated], the read of the
    saturation flag. *)
Definition IsSaturated (h : Store) (a : ptr) : bool := saturated_ (h a).

(** Modelled from the spec: [Payload::BatcherStartNs], the timestamp taken
    when the payload entered the batching system, an operand of a
    [uint64_t] subtraction in its caller. *)
Definition BatcherStartNs (h : Store) (a : ptr) : Z :=
  to_uint64 (batcher_start_ns_ (h a)).

(** ** InstanceQueue *)

(** The members of [InstanceQueue], as the constructor initialises them.
    Their declarations are in [instance_queue.h], which is not part of the
    sources: the queue is the [std::deque] of the calls made on it, the two
    limits have the types of the constructor's arguments, and
    [waiting_consumer_count_] is taken as the [int] that
    [WaitingConsumerCount] returns. *)
Record InstanceQueue : Type := mkInstanceQueue {
  payload_queue_ : list ptr;
  max_batch_size_ : Z;
  max_queue_delay_ns_ : Z;
  waiting_consumer_count_ : Z
}.

Definition with_queue (iq : InstanceQueue) (q : list ptr) : InstanceQueue :=
  mkInstanceQueue q (max_batch_size_ iq) (max_queue_delay_ns_ iq)
    (waiting_consumer_count_ iq).

Definition with_count (iq : InstanceQueue) (n : Z) : InstanceQueue :=
  mkInstanceQueue (payload_queue_ iq) (max_batch_size_ iq)
    (max_queue_delay_ns_ iq) n.

(** The constructor; its arguments are a [size_t] and a [uint64_t]. *)
Definition InstanceQueue_new (max_batch_size max_queue_delay_ns : Z)
  : InstanceQueue :=
  mkInstanceQueue [] (to_uint64 max_batch_size)
    (to_uint64 max_queue_delay_ns) 0.

Definition Size (iq : InstanceQueue) : Z :=
  Z.of_nat (length (payload_queue_ iq)).

Definition Empty (iq : InstanceQueue) : bool :=
  match payload_queue_ iq with
  | [] => true
  | _ :: _ => false
  end.

Definition Enqueue (iq : InstanceQueue) (payload : ptr) : InstanceQueue :=
  with_queue iq (payload_queue_ iq ++ [payload]).

(** ** Sample data

    Stores, clocks and merge decisions for the statements at concrete
    inputs.  [store_of rs] holds the payloads [rs] at the addresses
    [0, 1, ...]; [steady t] is a clock that reads [t] at every turn. *)

Definition payload_of (batch : Z) (sat : bool) (start : Z) : Payload :=
  mkPayload QUEUED batch sat start.

Definition store_of (rs : list Payload) : Store :=
  fun a => nth a rs (payload_of 1 false 0).

Definition steady (t : Z) : nat -> Z := fun _ => t.

Definition merge_always : Store -> ptr -> ptr -> bool := fun _ _ _ => true.

Definition merge_never : Store -> ptr -> ptr -> bool := fun _ _ _ => false.

(** A decision that looks at the store: both payloads must be marked
    EXECUTING. *)
Definition merge_if_executing : Store -> ptr -> ptr -> bool :=
  fun h p c =>
    match state_ (h p), state_ (h c) with
    | EXECUTING, EXECUTING => true
    | _, _ => false
    end.

(** Payload 0 of size 6 stamped 0, payload 1 of size 4 stamped 50 and
    payload 2 of size 5 stamped 60. *)
Definition three_payloads : Store :=
  store_of [payload_of 6 false 0; payload_of 4 false 50; payload_of 5 false 60].

(** Payloads 0 to 3 of sizes 1, 2, 3 and 4, stamped 0, 10, 20 and 30. *)
Definition four_payloads : Store :=
  store_of [payload_of 1 false 0; payload_of 2 false 10;
            payload_of 3 false 20; payload_of 4 false 30].

(** A clock that advances by one nanosecond from one reading to the next. *)
Definition ticking (t : Z) : nat -> Z := fun n => t + Z.of_nat n.

(** A queue with [max_batch_size = 10] and [max_queue_delay_ns = 100]. *)
Definition queue_of (q : list ptr) : InstanceQueue :=
  mkInstanceQueue q 10 100 0.

(** The ways a call of [Dequeue] ends: it returns; or it takes the
    [front()] of an empty deque, which is undefined; or it asks for an exec
    mutex that it holds itself. *)
Inductive Outcome (A : Type) : Type :=
  | Returned (r : A)
  | UndefinedFront
  | SelfLock.

Arguments Returned {A} r.
Arguments UndefinedFront {A}.
Arguments SelfLock {A}.

(** Modelled from the spec: [Payload::GetExecMutex].  The exec mutex is
    owned by the payload itself: two handles give the same mutex exactly
    when they point to the same payload. *)
Definition same_exec_mutex (a b : ptr) : bool := Nat.eqb a b.

Section Merge.

(** Modelled from the spec: whether [Payload::MergePayload] (in
    [payload.cc], not part of the sources) accepts the donor.  The spec only
    says that the merge fails when the two payloads are incompatible; the
    decision is left open and may depend on the whole store. *)
Variable compatible : Store -> ptr -> ptr -> bool.

(** Modelled from the spec: [Payload::MergePayload].  On success the
    receiver absorbs the donor and its batch size grows by the donor's; on
    failure the receiver is left unmodified and the donor intact. *)
Definition MergePayload (h : Store) (self other : ptr) : Store * bool :=
  if compatible h self other
  then (store_set h self
          (with_batch_size (h self)
             (size_t_add (BatchSize h self) (BatchSize h other))), true)
  else (h, false).

(** The do-while loop of [Dequeue].  [p] is the payload being dispatched,
    whose exec mutex the guard of line 65 holds throughout; [q] is the
    queue, [merged] the caller's vector; [clk n] is the [n]-th reading of
    the steady clock during the call.  The guard of line 81 locks the exec
    mutex of the front: when that is the mutex of [p] the loop has no
    result.  Every iteration that continues pops the front of the queue, so
    the loop is structural in [q]. *)
Fixpoint merge_loop (max_batch_size max_queue_delay_ns : Z) (clk : nat -> Z)
    (n : nat) (p : ptr) (h : Store) (q : list ptr) (merged : list ptr)
    {struct q} : option (Store * list ptr * list ptr) :=
  let now_ns := to_uint64 (clk n) in
  let batch_size := BatchSize h p in
  match q with
  | [] => Some (h, q, merged)
  | front :: rest =>
      if negb (IsSaturated h front) &&
         (max_queue_delay_ns <? uint64_sub now_ns (BatcherStartNs h front))
      then
        if same_exec_mutex front p
        then None
        else
          let h1 := SetState h front EXECUTING in
          let front_batch_size := BatchSize h1 front in
          if size_t_add batch_size front_batch_size <=? max_batch_size
          then
            let '(h2, ok) := MergePayload h1 p front in
            if ok
            then merge_loop max_batch_size max_queue_delay_ns clk (S n) p h2
                   rest (merged ++ [front])
            else Some (h2, q, merged)
          else Some (h1, q, merged)
      else Some (h, q, merged)
  end.

(** [Dequeue].  [merged_payloads] is the content of the caller's vector on
    entry; a call that returns gives the queue, the store, [*payload] and
    the vector on return. *)
Definition Dequeue (clk : nat -> Z) (iq : InstanceQueue) (h : Store)
    (merged_payloads : list ptr)
  : Outcome (InstanceQueue * Store * ptr * list ptr) :=
  match payload_queue_ iq with
  | [] => UndefinedFront
  | payload :: q =>
      let h0 := SetState h payload EXECUTING in
      if negb (Empty (with_queue iq q)) && (0 <? max_queue_delay_ns_ iq) &&
         (1 <? max_batch_size_ iq) && negb (IsSaturated h0 payload)
      then
        match merge_loop (max_batch_size_ iq) (max_queue_delay_ns_ iq) clk
                0%nat payload h0 q merged_payloads with
        | Some (h', q', merged') =>
            Returned (with_queue iq q', h', payload, merged')
        | None => SelfLock
        end
      else Returned (with_queue iq q, h0, payload, merged_payloads)
  end.

(** The two tests of the loop, named for the statements below: the test of
    lines 77-80 (the front is not saturated and has aged past the delay at
    the [n]-th clock reading) and the test of line 85. *)
Definition aged_out (max_queue_delay_ns : Z) (clk : nat -> Z) (n : nat)
    (h : Store) (c : ptr) : bool :=
  negb (IsSaturated h c) &&
  (max_queue_delay_ns <? uint64_sub (to_uint64 (clk n)) (BatcherStartNs h c)).

Definition fits (max_batch_size : Z) (p : ptr) (h : Store) (c : ptr) : bool :=
  size_t_add (BatchSize h p) (BatchSize h c) <=? max_batch_size.

(** Whether [Dequeue] enters its merge branch (lines 67-68). *)
Definition merging_enabled (iq : InstanceQueue) : bool :=
  (0 <? max_queue_delay_ns_ iq) && (1 <? max_batch_size_ iq).

(** The batch sizes of a run of payloads, added up as plain integers. *)
Fixpoint batch_total (h : Store) (ms : list ptr) : Z :=
  match ms with
  | [] => 0
  | c :: ms' => BatchSize h c + batch_total h ms'
  end.

(** The store after the payloads [ms] were marked EXECUTING and merged
    into [p], one after the other and each accepted: what the turns of the
    loop that take [ms] leave behind. *)
Fixpoint absorbed (h : Store) (p : ptr) (ms : list ptr) : Store :=
  match ms with
  | [] => h
  | c :: ms' =>
      absorbed (fst (MergePayload (SetState h c EXECUTING) p c)) p ms'
  end.

(** Two stores that agree on the saturation flag and on the batcher
    timestamp of every payload. *)
Definition same_marks (h h' : Store) : Prop :=
  forall x, saturated_ (h' x) = saturated_ (h x) /\
            batcher_start_ns_ (h' x) = batcher_start_ns_ (h x).

(** What a caller sees of a [Dequeue] that returns: the queue it leaves,
    [*payload] and the vector. *)
Definition observed (r : Outcome (InstanceQueue * Store * ptr * list ptr))
  : option (list ptr * ptr * list ptr) :=
  match r with
  | Returned (iq', _, payload, merged_payloads) =>
      Some (payload_queue_ iq', payload, merged_payloads)
  | UndefinedFront => None
  | SelfLock => None
  end.

(** ** The consumer-readiness counter

    [notify_one] has no effect on the state of a sequential run.  The
    increment and the decrement of an [int] are undefined at the ends of
    its range: [None]. *)

Definition IncrementConsumerCount (iq : InstanceQueue) : option InstanceQueue :=
  if waiting_consumer_count_ iq <? INT_MAX
  then Some (with_count iq (waiting_consumer_count_ iq + 1))
  else None.

Definition DecrementConsumerCount (iq : InstanceQueue) : option InstanceQueue :=
  if INT_MIN <? waiting_consumer_count_ iq
  then Some (with_count iq (waiting_consumer_count_ iq - 1))
  else None.

(** [WaitForConsumer] returns once the predicate [waiting_consumer_count_ > 0]
    holds.  In a sequential run nobody else can raise the counter, so the
    call returns at once or never: [None]. *)
Definition WaitForConsumer (iq : InstanceQueue) : option unit :=
  if 0 <? waiting_consumer_count_ iq then Some tt else None.

Definition WaitingConsumerCount (iq : InstanceQueue) : Z :=
  waiting_consumer_count_ iq.

(** ** Call sequences

    A client of the queue performs a sequence of calls on one queue and one
    store.  Each [Dequeue] is handed an empty vector and the clock readings
    it will see. *)

Inductive Call : Type :=
  | CallSize
  | CallEmpty
  | CallEnqueue (payload : ptr)
  | CallDequeue (clk : nat -> Z)
  | CallIncrementConsumerCount
  | CallDecrementConsumerCount
  | CallWaitForConsumer
  | CallWaitingConsumerCount.

Inductive Reply : Type :=
  | RetSize (n : Z)
  | RetEmpty (b : bool)
  | RetVoid
  | RetDequeue (payload : ptr) (merged_payloads : list ptr)
  | RetCount (n : Z).

Definition World : Type := (InstanceQueue * Store)%type.

Definition call (w : World) (c : Call) : option (World * Reply) :=
  let '(iq, h) := w in
  match c with
  | CallSize => Some (w, RetSize (Size iq))
  | CallEmpty => Some (w, RetEmpty (Empty iq))
  | CallEnqueue payload => Some ((Enqueue iq payload, h), RetVoid)
  | CallDequeue clk =>
      match Dequeue clk iq h [] with
      | Returned (iq', h', payload, merged_payloads) =>
          Some ((iq', h'), RetDequeue payload merged_payloads)
      | UndefinedFront => None
      | SelfLock => None
      end
  | CallIncrementConsumerCount =>
      match IncrementConsumerCount iq with
      | Some iq' => Some ((iq', h), RetVoid)
      | None => None
      end
  | CallDecrementConsumerCount =>
      match DecrementConsumerCount iq with
      | Some iq' => Some ((iq', h), RetVoid)
      | None => None
      end
  | CallWaitForConsumer =>
      match WaitForConsumer iq with
      | Some _ => Some (w, RetVoid)
      | None => None
      end
  | CallWaitingConsumerCount => Some (w, RetCount (WaitingConsumerCount iq))
  end.

Fixpoint run (w : World) (cs : list Call) : option (World * list Reply) :=
  match cs with
  | [] => Some (w, [])
  | c :: cs' =>
      match call w c with
      | Some (w1, r) =>
          match run w1 cs' with
          | Some (w2, rs) => Some (w2, r :: rs)
          | None => None
          end
      | None => None
      end
  end.

(** The payloads handed to [Enqueue], in call order. *)
Fixpoint enqueued (cs : list Call) : list ptr :=
  match cs with
  | [] => []
  | CallEnqueue payload :: cs' => payload :: enqueued cs'
  | _ :: cs' => enqueued cs'
  end.

(** The payloads handed back by [Dequeue], in return order: for each call
    the dispatched payload followed by the payloads merged into it. *)
Fixpoint dispatched (rs : list Reply) : list ptr :=
  match rs with
  | [] => []
  | RetDequeue payload merged_payloads :: rs' =>
      payload :: merged_payloads ++ dispatched rs'
  | _ :: rs' => dispatched rs'
  end.

(** Increments minus decrements of a call sequence. *)
Fixpoint net_consumers (cs : list Call) : Z :=
  match cs with
  | [] => 0
  | CallIncrementConsumerCount :: cs' => 1 + net_consumers cs'
  | CallDecrementConsumerCount :: cs' => -1 + net_consumers cs'
  | _ :: cs' => net_consumers cs'
  end.

(** Whether a call sequence never has decremented more often than it has
    incremented, [n] being the balance before it. *)
Fixpoint balanced (n : Z) (cs : list Call) : bool :=
  match cs with
  | [] => true
  | CallIncrementConsumerCount :: cs' => balanced (n + 1) cs'
  | CallDecrementConsumerCount :: cs' => (0 <? n) && balanced (n - 1) cs'
  | _ :: cs' => balanced n cs'
  end.

(** * Properties *)

(** ** The store under [SetState] and [MergePayload] *)

Lemma store_set_same (h : Store) (a : ptr) (v : Payload) :
  store_set h a v a = v.
Proof. unfold store_set. now rewrite Nat.eqb_refl. Qed.

Lemma store_set_other (h : Store) (a x : ptr) (v : Payload) :
  x <> a -> store_set h a v x = h x.
Proof.
  intro Hne. unfold store_set.
  destruct (Nat.eqb_spec x a) as [->|_]; [contradiction | reflexivity].
Qed.

Lemma SetState_GetState (h : Store) (a : ptr) (s : PayloadState) :
  GetState (SetState h a s) a = s.
Proof. unfold GetState, SetState. now rewrite store_set_same. Qed.

Lemma SetState_saturated (h : Store) (a x : ptr) (s : PayloadState) :
  saturated_ (SetState h a s x) = saturated_ (h x).
Proof.
  unfold SetState, store_set.
  destruct (Nat.eqb_spec x a) as [->|_]; reflexivity.
Qed.

Lemma SetState_start (h : Store) (a x : ptr) (s : PayloadState) :
  batcher_start_ns_ (SetState h a s x) = batcher_start_ns_ (h x).
Proof.
  unfold SetState, store_set.
  destruct (Nat.eqb_spec x a) as [->|_]; reflexivity.
Qed.

Lemma SetState_batch_size (h : Store) (a x : ptr) (s : PayloadState) :
  batch_size_ (SetState h a s x) = batch_size_ (h x).
Proof.
  unfold SetState, store_set.
  destruct (Nat.eqb_spec x a) as [->|_]; reflexivity.
Qed.

Lemma SetState_BatchSize (h : Store) (a x : ptr) (s : PayloadState) :
  BatchSize (SetState h a s) x = BatchSize h x.
Proof. unfold BatchSize. now rewrite SetState_batch_size. Qed.

Lemma SetState_IsSaturated (h : Store) (a x : ptr) (s : PayloadState) :
  IsSaturated (SetState h a s) x = IsSaturated h x.
Proof. apply SetState_saturated. Qed.

Lemma SetState_BatcherStartNs (h : Store) (a x : ptr) (s : PayloadState) :
  BatcherStartNs (SetState h a s) x = BatcherStartNs h x.
Proof. unfold BatcherStartNs. now rewrite SetState_start. Qed.

Lemma MergePayload_ok (h h' : Store) (p c : ptr) :
  MergePayload h p c = (h', true) ->
  compatible h p c = true /\
  h' = store_set h p
         (with_batch_size (h p) (size_t_add (BatchSize h p) (BatchSize h c))).
Proof.
  unfold MergePayload. destruct (compatible h p c); intro E.
  - now inversion E.
  - discriminate.
Qed.

Lemma MergePayload_failed (h h' : Store) (p c : ptr) :
  MergePayload h p c = (h', false) -> compatible h p c = false /\ h' = h.
Proof.
  unfold MergePayload. destruct (compatible h p c); intro E.
  - discriminate.
  - now inversion E.
Qed.

Lemma MergePayload_saturated (h h' : Store) (p c x : ptr) (ok : bool) :
  MergePayload h p c = (h', ok) -> saturated_ (h' x) = saturated_ (h x).
Proof.
  unfold MergePayload. destruct (compatible h p c); intro E; inversion E; subst.
  - unfold store_set. destruct (Nat.eqb_spec x p) as [->|_]; reflexivity.
  - reflexivity.
Qed.

Lemma MergePayload_start (h h' : Store) (p c x : ptr) (ok : bool) :
  MergePayload h p c = (h', ok) ->
  batcher_start_ns_ (h' x) = batcher_start_ns_ (h x).
Proof.
  unfold MergePayload. destruct (compatible h p c); intro E; inversion E; subst.
  - unfold store_set. destruct (Nat.eqb_spec x p) as [->|_]; reflexivity.
  - reflexivity.
Qed.

Lemma MergePayload_state (h h' : Store) (p c x : ptr) (ok : bool) :
  MergePayload h p c = (h', ok) -> state_ (h' x) = state_ (h x).
Proof.
  unfold MergePayload. destruct (compatible h p c); intro E; inversion E; subst.
  - unfold store_set. destruct (Nat.eqb_spec x p) as [->|_]; reflexivity.
  - reflexivity.
Qed.

(** ** One turn of the merge loop *)

Lemma same_exec_mutex_other (c p : ptr) :
  c <> p -> same_exec_mutex c p = false.
Proof. intro Hne. unfold same_exec_mutex. now apply Nat.eqb_neq. Qed.

Section Loop.

Variables (mbs mqd : Z) (clk : nat -> Z) (p : ptr).

Lemma merge_loop_nil (n : nat) (h : Store) (merged : list ptr) :
  merge_loop mbs mqd clk n p h [] merged = Some (h, [], merged).
Proof. reflexivity. Qed.

Lemma merge_loop_not_aged (n : nat) (h : Store) (c : ptr)
    (q merged : list ptr) :
  aged_out mqd clk n h c = false ->
  merge_loop mbs mqd clk n p h (c :: q) merged = Some (h, c :: q, merged).
Proof.
  intro E. unfold aged_out in E. simpl. now rewrite E.
Qed.

(** The front is the dispatched payload and passes the test of line 77:
    line 81 asks for the mutex that line 65 holds. *)
Lemma merge_loop_relock (n : nat) (h : Store) (q merged : list ptr) :
  aged_out mqd clk n h p = true ->
  merge_loop mbs mqd clk n p h (p :: q) merged = None.
Proof.
  intro E. unfold aged_out in E. simpl. rewrite E.
  unfold same_exec_mutex. now rewrite Nat.eqb_refl.
Qed.

Lemma merge_loop_no_fit (n : nat) (h : Store) (c : ptr) (q merged : list ptr) :
  aged_out mqd clk n h c = true ->
  c <> p ->
  fits mbs p h c = false ->
  merge_loop mbs mqd clk n p h (c :: q) merged =
  Some (SetState h c EXECUTING, c :: q, merged).
Proof.
  intros Ea Hne Ef. unfold aged_out in Ea. unfold fits in Ef. simpl.
  rewrite Ea, (same_exec_mutex_other c p Hne), SetState_BatchSize, Ef.
  reflexivity.
Qed.

Lemma merge_loop_merge_failed (n : nat) (h : Store) (c : ptr)
    (q merged : list ptr) :
  aged_out mqd clk n h c = true ->
  c <> p ->
  fits mbs p h c = true ->
  compatible (SetState h c EXECUTING) p c = false ->
  merge_loop mbs mqd clk n p h (c :: q) merged =
  Some (SetState h c EXECUTING, c :: q, merged).
Proof.
  intros Ea Hne Ef Ec. unfold aged_out in Ea. unfold fits in Ef. simpl.
  rewrite Ea, (same_exec_mutex_other c p Hne), SetState_BatchSize, Ef.
  unfold MergePayload. now rewrite Ec.
Qed.

Lemma merge_loop_merged (n : nat) (h : Store) (c : ptr) (q merged : list ptr) :
  aged_out mqd clk n h c = true ->
  c <> p ->
  fits mbs p h c = true ->
  compatible (SetState h c EXECUTING) p c = true ->
  merge_loop mbs mqd clk n p h (c :: q) merged =
  merge_loop mbs mqd clk (S n) p
    (fst (MergePayload (SetState h c EXECUTING) p c)) q (merged ++ [c]).
Proof.
  intros Ea Hne Ef Ec. unfold aged_out in Ea. unfold fits in Ef. simpl.
  rewrite Ea, (same_exec_mutex_other c p Hne), SetState_BatchSize, Ef.
  unfold MergePayload. now rewrite Ec.
Qed.

(** The five ways a turn can go, for the proofs by induction on the
    queue. *)
Lemma merge_loop_turn (n : nat) (h : Store) (c : ptr) (q merged : list ptr) :
  (aged_out mqd clk n h c = false /\
   merge_loop mbs mqd clk n p h (c :: q) merged = Some (h, c :: q, merged)) \/
  (aged_out mqd clk n h c = true /\ c = p /\
   merge_loop mbs mqd clk n p h (c :: q) merged = None) \/
  (aged_out mqd clk n h c = true /\ c <> p /\ fits mbs p h c = false /\
   merge_loop mbs mqd clk n p h (c :: q) merged =
   Some (SetState h c EXECUTING, c :: q, merged)) \/
  (aged_out mqd clk n h c = true /\ c <> p /\ fits mbs p h c = true /\
   compatible (SetState h c EXECUTING) p c = false /\
   merge_loop mbs mqd clk n p h (c :: q) merged =
   Some (SetState h c EXECUTING, c :: q, merged)) \/
  (aged_out mqd clk n h c = true /\ c <> p /\ fits mbs p h c = true /\
   compatible (SetState h c EXECUTING) p c = true /\
   merge_loop mbs mqd clk n p h (c :: q) merged =
   merge_loop mbs mqd clk (S n) p
     (fst (MergePayload (SetState h c EXECUTING) p c)) q (merged ++ [c])).
Proof.
  destruct (aged_out mqd clk n h c) eqn:Ea.
  2:{ left. split; [reflexivity | now apply merge_loop_not_aged]. }
  right. destruct (Nat.eq_dec c p) as [-> | Hne].
  { left. repeat split. now apply merge_loop_relock. }
  right. destruct (fits mbs p h c) eqn:Ef.
  2:{ left. repeat split; try assumption. now apply merge_loop_no_fit. }
  right. destruct (compatible (SetState h c EXECUTING) p c) eqn:Ec.
  - right. repeat split; try assumption. now apply merge_loop_merged.
  - left. repeat split; try assumption. now apply merge_loop_merge_failed.
Qed.

(** A loop that returns has moved a prefix of the queue to the end of the
    vector, and nothing else has happened to either. *)
Lemma merge_loop_split (q : list ptr) :
  forall n h merged h' q' merged',
    merge_loop mbs mqd clk n p h q merged = Some (h', q', merged') ->
    exists ms, merged' = merged ++ ms /\ q = ms ++ q'.
Proof.
  induction q as [|c q IH]; intros n h merged h' q' merged' E.
  - inversion E; subst. exists []. now rewrite app_nil_r.
  - destruct (merge_loop_turn n h c q merged)
      as [[_ T] | [[_ [_ T]] | [[_ [_ [_ T]]] | [[_ [_ [_ [_ T]]]]
                                                | [_ [_ [_ [_ T]]]]]]]];
      rewrite T in E.
    + inversion E; subst. exists []. now rewrite app_nil_r.
    + discriminate E.
    + inversion E; subst. exists []. now rewrite app_nil_r.
    + inversion E; subst. exists []. now rewrite app_nil_r.
    + apply IH in E. destruct E as [ms [-> ->]].
      exists (c :: ms). now rewrite <- app_assoc.
Qed.

(** Neither [SetState] nor [MergePayload] touches the saturation flag or
    the batcher timestamp of any payload, so the age test gives the same
    answer in every store the loop goes through. *)
Lemma same_marks_refl (h : Store) : same_marks h h.
Proof. intro x. split; reflexivity. Qed.

Lemma same_marks_trans (h1 h2 h3 : Store) :
  same_marks h1 h2 -> same_marks h2 h3 -> same_marks h1 h3.
Proof.
  intros H12 H23 x. destruct (H12 x) as [A B]. destruct (H23 x) as [C D].
  split; congruence.
Qed.

Lemma same_marks_SetState (h : Store) (a : ptr) (s : PayloadState) :
  same_marks h (SetState h a s).
Proof. intro x. split; [apply SetState_saturated | apply SetState_start]. Qed.

Lemma same_marks_MergePayload (h : Store) (a c : ptr) :
  same_marks h (fst (MergePayload h a c)).
Proof.
  intro x. split.
  - eapply MergePayload_saturated. apply surjective_pairing.
  - eapply MergePayload_start. apply surjective_pairing.
Qed.

Lemma same_marks_turn (h : Store) (c : ptr) :
  same_marks h (fst (MergePayload (SetState h c EXECUTING) p c)).
Proof.
  eapply same_marks_trans; [apply same_marks_SetState |].
  apply same_marks_MergePayload.
Qed.

Lemma aged_out_same_marks (h h' : Store) (n : nat) (c : ptr) :
  same_marks h h' -> aged_out mqd clk n h' c = aged_out mqd clk n h c.
Proof.
  intro Hm. destruct (Hm c) as [Hs Hb].
  unfold aged_out, IsSaturated, BatcherStartNs. now rewrite Hs, Hb.
Qed.

(** What a loop that returns has done: it moved a prefix [ms] of the queue
    to the vector, no member of [ms] is the dispatched payload, every
    member passed the age test at the clock reading of its turn, and the
    marks are those of the initial store. *)
Lemma merge_loop_inv (q : list ptr) :
  forall n h merged h' q' merged',
    merge_loop mbs mqd clk n p h q merged = Some (h', q', merged') ->
    exists ms,
      merged' = merged ++ ms /\ q = ms ++ q' /\ same_marks h h' /\
      ~ In p ms /\
      forall i m, nth_error ms i = Some m ->
                  aged_out mqd clk (n + i) h m = true.
Proof.
  induction q as [|c q IH]; intros n h merged h' q' merged' E.
  - inversion E; subst. exists []. rewrite app_nil_r.
    split; [reflexivity | split; [reflexivity | split; [| split]]].
    + apply same_marks_refl.
    + intros [].
    + intros [|i] m Hi; discriminate.
  - assert (Hstop : forall st, same_marks h st ->
              Some (st, c :: q, merged) = Some (h', q', merged') ->
              exists ms, merged' = merged ++ ms /\ c :: q = ms ++ q' /\
                same_marks h h' /\ ~ In p ms /\
                forall i m, nth_error ms i = Some m ->
                            aged_out mqd clk (n + i) h m = true).
    { intros st Hst Est. inversion Est; subst. exists []. rewrite app_nil_r.
      split; [reflexivity | split; [reflexivity | split; [| split]]].
      - exact Hst.
      - intros [].
      - intros [|i] m Hi; discriminate. }
    destruct (merge_loop_turn n h c q merged)
      as [[_ T] | [[_ [_ T]] | [[_ [_ [_ T]]] | [[_ [_ [_ [_ T]]]]
                                                | [Ea [Hne [_ [_ T]]]]]]]];
      rewrite T in E.
    + apply (Hstop h); [apply same_marks_refl | exact E].
    + discriminate E.
    + apply (Hstop _ (same_marks_SetState h c EXECUTING) E).
    + apply (Hstop _ (same_marks_SetState h c EXECUTING) E).
    + apply IH in E. destruct E as [ms [-> [-> [Hm [Hp Hall]]]]].
      exists (c :: ms). rewrite <- app_assoc.
      split; [reflexivity | split; [reflexivity | split; [| split]]].
      * eapply same_marks_trans; [apply same_marks_turn | exact Hm].
      * intros [H | H]; [now apply Hne | now apply Hp].
      * intros [|i] m Hi.
        -- inversion Hi; subst. now rewrite Nat.add_0_r.
        -- simpl in Hi. apply Hall in Hi.
           rewrite (aged_out_same_marks h) in Hi by apply same_marks_turn.
           now rewrite Nat.add_succ_r.
Qed.

(** The loop returns on a queue that does not hold the dispatched
    payload, and only the dispatched payload in the queue can keep it from
    returning. *)
Lemma merge_loop_returns (q : list ptr) :
  forall n h merged,
    ~ In p q ->
    exists h' q' merged',
      merge_loop mbs mqd clk n p h q merged = Some (h', q', merged').
Proof.
  induction q as [|c q IH]; intros n h merged Hp.
  - now exists h, [], merged.
  - assert (Hq : ~ In p q) by (intro H; apply Hp; now right).
    destruct (merge_loop_turn n h c q merged)
      as [[_ T] | [[_ [Hc T]] | [[_ [_ [_ T]]] | [[_ [_ [_ [_ T]]]]
                                                 | [_ [_ [_ [_ T]]]]]]]];
      rewrite T.
    + now eexists _, _, _.
    + exfalso. apply Hp. now left.
    + now eexists _, _, _.
    + now eexists _, _, _.
    + now apply IH.
Qed.

Lemma merge_loop_self_lock (q : list ptr) (n : nat) (h : Store)
    (merged : list ptr) :
  merge_loop mbs mqd clk n p h q merged = None -> In p q.
Proof.
  intro E. destruct (in_dec Nat.eq_dec p q) as [Hin | Hnot]; [exact Hin |].
  destruct (merge_loop_returns q n h merged Hnot) as [h' [q' [m' E']]].
  rewrite E' in E. discriminate E.
Qed.

End Loop.

(** ** [Dequeue] as a whole *)

Lemma Dequeue_empty (clk : nat -> Z) (iq : InstanceQueue) (h : Store)
    (mp : list ptr) :
  payload_queue_ iq = [] -> Dequeue clk iq h mp = UndefinedFront.
Proof. intro E. unfold Dequeue. now rewrite E. Qed.

(** The undefined [front()] is reached on an empty queue and on no
    other. *)
Lemma Dequeue_undefined_iff (clk : nat -> Z) (iq : InstanceQueue) (h : Store)
    (mp : list ptr) :
  Dequeue clk iq h mp = UndefinedFront <-> payload_queue_ iq = [].
Proof.
  split; [| apply Dequeue_empty].
  unfold Dequeue. destruct (payload_queue_ iq) as [|a q]; [reflexivity |].
  cbv zeta.
  destruct (negb (Empty (with_queue iq q)) && (0 <? max_queue_delay_ns_ iq) &&
            (1 <? max_batch_size_ iq) &&
            negb (IsSaturated (SetState h a EXECUTING) a)).
  - destruct (merge_loop (max_batch_size_ iq) (max_queue_delay_ns_ iq) clk
                0%nat a (SetState h a EXECUTING) q mp) as [[[h' q'] mp']|];
      intro H; discriminate H.
  - intro H. discriminate H.
Qed.

(** When the merge branch is not entered, [Dequeue] pops the front and
    leaves the vector alone. *)
Lemma Dequeue_no_merge (clk : nat -> Z) (iq : InstanceQueue) (h : Store)
    (mp : list ptr) (a : ptr) (q : list ptr) :
  payload_queue_ iq = a :: q ->
  merging_enabled iq && negb (IsSaturated h a) = false ->
  Dequeue clk iq h mp =
  Returned (with_queue iq q, SetState h a EXECUTING, a, mp).
Proof.
  intros Eq Eoff. unfold Dequeue. rewrite Eq.
  unfold merging_enabled in Eoff. cbv zeta.
  rewrite SetState_IsSaturated.
  destruct (negb (Empty (with_queue iq q))), (0 <? max_queue_delay_ns_ iq),
    (1 <? max_batch_size_ iq), (negb (IsSaturated h a));
    simpl in *; try discriminate; reflexivity.
Qed.

(** Nor is it entered when the dispatched payload was alone in the
    queue. *)
Lemma Dequeue_single (clk : nat -> Z) (iq : InstanceQueue) (h : Store)
    (mp : list ptr) (a : ptr) :
  payload_queue_ iq = [a] ->
  Dequeue clk iq h mp =
  Returned (with_queue iq [], SetState h a EXECUTING, a, mp).
Proof. intro Eq. unfold Dequeue. now rewrite Eq. Qed.

(** When it is entered, the outcome is the one of the loop. *)
Lemma Dequeue_merge (clk : nat -> Z) (iq : InstanceQueue) (h : Store)
    (mp : list ptr) (a c : ptr) (q : list ptr) :
  payload_queue_ iq = a :: c :: q ->
  merging_enabled iq = true ->
  IsSaturated h a = false ->
  Dequeue clk iq h mp =
  match merge_loop (max_batch_size_ iq) (max_queue_delay_ns_ iq) clk 0%nat a
          (SetState h a EXECUTING) (c :: q) mp with
  | Some (h', q', mp') => Returned (with_queue iq q', h', a, mp')
  | None => SelfLock
  end.
Proof.
  intros Eq Eon Esat. unfold Dequeue. rewrite Eq.
  unfold merging_enabled in Eon. apply andb_prop in Eon.
  destruct Eon as [E1 E2].
  cbv zeta. rewrite SetState_IsSaturated, Esat, E1, E2. reflexivity.
Qed.

(** A [Dequeue] that returns hands back the front, has appended a prefix
    [ms] of the rest to the vector and leaves the rest of the rest as the
    new queue; no member of [ms] is the dispatched payload, and each passed
    the age test in the initial store. *)
Lemma Dequeue_inv (clk : nat -> Z) (iq iq' : InstanceQueue) (h h' : Store)
    (mp mp' : list ptr) (a a' : ptr) (q : list ptr) :
  payload_queue_ iq = a :: q ->
  Dequeue clk iq h mp = Returned (iq', h', a', mp') ->
  exists q' ms,
    iq' = with_queue iq q' /\ a' = a /\ mp' = mp ++ ms /\
    q = ms ++ q' /\ same_marks h h' /\ ~ In a ms /\
    (ms <> [] -> merging_enabled iq = true /\ IsSaturated h a = false) /\
    forall i m, nth_error ms i = Some m ->
                aged_out (max_queue_delay_ns_ iq) clk i h m = true.
Proof.
  intros Eq E.
  assert (Halone : forall q0,
      Returned (with_queue iq q0, SetState h a EXECUTING, a, mp) =
      Returned (iq', h', a', mp') ->
      q = q0 ->
      exists q' ms,
        iq' = with_queue iq q' /\ a' = a /\ mp' = mp ++ ms /\
        q = ms ++ q' /\ same_marks h h' /\ ~ In a ms /\
        (ms <> [] -> merging_enabled iq = true /\ IsSaturated h a = false) /\
        forall i m, nth_error ms i = Some m ->
                    aged_out (max_queue_delay_ns_ iq) clk i h m = true).
  { intros q0 E0 Hq. inversion E0; subst. exists q0, []. rewrite app_nil_r.
    split; [reflexivity | split; [reflexivity | split; [reflexivity |]]].
    split; [reflexivity | split; [apply same_marks_SetState |]].
    split; [intros [] | split].
    - intro Hne. now contradiction Hne.
    - intros [|i] m Hi; discriminate. }
  destruct (merging_enabled iq && negb (IsSaturated h a)) eqn:Eon.
  - apply andb_prop in Eon. destruct Eon as [Eon Esat].
    apply negb_true_iff in Esat.
    destruct q as [|c q].
    + rewrite (Dequeue_single clk iq h mp a Eq) in E.
      now apply (Halone []).
    + rewrite (Dequeue_merge clk iq h mp a c q Eq Eon Esat) in E.
      destruct (merge_loop (max_batch_size_ iq) (max_queue_delay_ns_ iq) clk
                  0%nat a (SetState h a EXECUTING) (c :: q) mp)
        as [[[h1 q1] mp1]|] eqn:El; [| discriminate E].
      inversion E; subst.
      apply merge_loop_inv in El.
      destruct El as [ms [-> [Hq [Hm [Hp Hall]]]]].
      exists q1, ms.
      split; [reflexivity | split; [reflexivity | split; [reflexivity |]]].
      split; [exact Hq | split].
      * eapply same_marks_trans; [apply same_marks_SetState | exact Hm].
      * split; [exact Hp | split].
        -- intros _. now split.
        -- intros i m Hi. apply Hall in Hi. simpl in Hi.
           now rewrite (aged_out_same_marks _ _ h) in Hi
             by apply same_marks_SetState.
  - rewrite (Dequeue_no_merge clk iq h mp a q Eq Eon) in E.
    now apply (Halone q).
Qed.

(** [Dequeue] returns on a queue that does not hold the dispatched payload
    a second time. *)
Lemma Dequeue_returns (clk : nat -> Z) (iq : InstanceQueue) (h : Store)
    (mp : list ptr) (a : ptr) (q : list ptr) :
  payload_queue_ iq = a :: q ->
  ~ In a q ->
  exists iq' h' mp', Dequeue clk iq h mp = Returned (iq', h', a, mp').
Proof.
  intros Eq Hp.
  destruct (merging_enabled iq && negb (IsSaturated h a)) eqn:Eon.
  - apply andb_prop in Eon. destruct Eon as [Eon Esat].
    apply negb_true_iff in Esat.
    destruct q as [|c q].
    + rewrite (Dequeue_single clk iq h mp a Eq). now eexists _, _, _.
    + rewrite (Dequeue_merge clk iq h mp a c q Eq Eon Esat).
      destruct (merge_loop_returns (max_batch_size_ iq)
                  (max_queue_delay_ns_ iq) clk a (c :: q) 0%nat
                  (SetState h a EXECUTING) mp Hp) as [h' [q' [mp' E]]].
      rewrite E. now eexists _, _, _.
  - rewrite (Dequeue_no_merge clk iq h mp a q Eq Eon). now eexists _, _, _.
Qed.

(** It fails to return only by asking for the exec mutex it holds, which
    takes a queue that holds the dispatched payload again, merging switched
    on and a dispatched payload that is not saturated. *)
Lemma Dequeue_self_lock (clk : nat -> Z) (iq : InstanceQueue) (h : Store)
    (mp : list ptr) (a : ptr) (q : list ptr) :
  payload_queue_ iq = a :: q ->
  Dequeue clk iq h mp = SelfLock ->
  In a q /\ merging_enabled iq = true /\ IsSaturated h a = false.
Proof.
  intros Eq E.
  destruct (merging_enabled iq && negb (IsSaturated h a)) eqn:Eon.
  - apply andb_prop in Eon. destruct Eon as [Eon Esat].
    apply negb_true_iff in Esat.
    split; [| now split].
    destruct (in_dec Nat.eq_dec a q) as [Hin | Hnot]; [exact Hin |].
    destruct (Dequeue_returns clk iq h mp a q Eq Hnot) as [iq' [h' [mp' E']]].
    rewrite E' in E. discriminate E.
  - rewrite (Dequeue_no_merge clk iq h mp a q Eq Eon) in E. discriminate E.
Qed.

(** The plainest such queue: the dispatched payload is also the first
    candidate and passes the test of line 77. *)
Lemma Dequeue_relock_front (clk : nat -> Z) (iq : InstanceQueue) (h : Store)
    (mp : list ptr) (a : ptr) (rest : list ptr) :
  payload_queue_ iq = a :: a :: rest ->
  merging_enabled iq = true ->
  IsSaturated h a = false ->
  aged_out (max_queue_delay_ns_ iq) clk 0%nat h a = true ->
  Dequeue clk iq h mp = SelfLock.
Proof.
  intros Eq Eon Esat Ea.
  rewrite (Dequeue_merge clk iq h mp a a rest Eq Eon Esat).
  rewrite merge_loop_relock; [reflexivity |].
  now rewrite (aged_out_same_marks _ _ h) by apply same_marks_SetState.
Qed.

(** ** Unsigned 64-bit arithmetic *)

Lemma to_uint64_range (z : Z) : 0 <= to_uint64 z < UINT64_MOD.
Proof. unfold to_uint64. apply Z.mod_pos_bound. reflexivity. Qed.

Lemma to_uint64_small (z : Z) : 0 <= z < UINT64_MOD -> to_uint64 z = z.
Proof. intro Hz. unfold to_uint64. now apply Z.mod_small. Qed.

Lemma BatchSize_range (h : Store) (a : ptr) : 0 <= BatchSize h a < UINT64_MOD.
Proof. apply to_uint64_range. Qed.

Lemma BatcherStartNs_range (h : Store) (a : ptr) :
  0 <= BatcherStartNs h a < UINT64_MOD.
Proof. apply to_uint64_range. Qed.

(** No borrow: the difference is the plain one. *)
Lemma uint64_sub_no_wrap (a b : Z) :
  0 <= b <= a -> a < UINT64_MOD -> uint64_sub a b = a - b.
Proof. intros Hb Ha. unfold uint64_sub. apply to_uint64_small. lia. Qed.

(** Borrow: the difference is the plain one plus [2^64]. *)
Lemma uint64_sub_wrap (a b : Z) :
  0 <= a < b -> b < UINT64_MOD -> uint64_sub a b = UINT64_MOD - (b - a).
Proof.
  intros Ha Hb. unfold uint64_sub, to_uint64.
  replace (a - b) with (UINT64_MOD - (b - a) + (-1) * UINT64_MOD) by ring.
  rewrite Z.mod_add by (unfold UINT64_MOD; lia).
  apply Z.mod_small. lia.
Qed.

(** No carry: the sum is the plain one. *)
Lemma size_t_add_no_wrap (a b : Z) :
  0 <= a -> 0 <= b -> a + b < UINT64_MOD -> size_t_add a b = a + b.
Proof. intros Ha Hb Hs. unfold size_t_add. apply to_uint64_small. lia. Qed.

(** The sum never exceeds the plain one. *)
Lemma size_t_add_le (a b : Z) : 0 <= a -> 0 <= b -> size_t_add a b <= a + b.
Proof.
  intros Ha Hb. unfold size_t_add, to_uint64.
  apply Z.mod_le; [lia | reflexivity].
Qed.

Lemma aged_out_true (mqd : Z) (clk : nat -> Z) (n : nat) (h : Store) (c : ptr) :
  aged_out mqd clk n h c = true <->
  IsSaturated h c = false /\
  mqd < uint64_sub (to_uint64 (clk n)) (BatcherStartNs h c).
Proof.
  unfold aged_out. rewrite andb_true_iff, negb_true_iff, Z.ltb_lt. tauto.
Qed.

(** A first candidate that fails the age test stays where it is. *)
Lemma Dequeue_front_not_aged (clk : nat -> Z) (iq : InstanceQueue) (h : Store)
    (mp : list ptr) (a c : ptr) (rest : list ptr) :
  payload_queue_ iq = a :: c :: rest ->
  aged_out (max_queue_delay_ns_ iq) clk 0%nat h c = false ->
  Dequeue clk iq h mp =
  Returned (with_queue iq (c :: rest), SetState h a EXECUTING, a, mp).
Proof.
  intros Eq Ea.
  destruct (merging_enabled iq && negb (IsSaturated h a)) eqn:Eon.
  - apply andb_prop in Eon. destruct Eon as [Eon Esat].
    apply negb_true_iff in Esat.
    rewrite (Dequeue_merge clk iq h mp a c rest Eq Eon Esat).
    rewrite merge_loop_not_aged; [reflexivity |].
    now rewrite (aged_out_same_marks _ _ h) by apply same_marks_SetState.
  - now apply Dequeue_no_merge.
Qed.

(** ** The claims about a single [Dequeue] *)

(** C9, as the code has it.  The undefined [front()] is reached exactly on
    an empty queue, which nothing checks, that is exactly when [Empty]
    answers true.  On a non-empty queue the front
    access yields a value, a call that returns hands back the front as
    [*payload], and the call returns whenever the queue does not hold the
    dispatched payload a second time.  It does not return when merging is
    on and the next payload in the queue is the dispatched payload itself,
    unsaturated and aged past the delay: the guard of line 81 then asks for
    the exec mutex that the guard of line 65 holds.  That is the only way
    for it not to return. *)
Theorem Dequeue_defined_on_nonempty (clk : nat -> Z) (iq : InstanceQueue)
    (h : Store) (mp : list ptr) :
  (Dequeue clk iq h mp = UndefinedFront <-> payload_queue_ iq = []) /\
  (Dequeue clk iq h mp = UndefinedFront <-> Empty iq = true) /\
  (forall a q,
      payload_queue_ iq = a :: q ->
      (forall iq' h' a' mp',
          Dequeue clk iq h mp = Returned (iq', h', a', mp') -> a' = a) /\
      (~ In a q ->
       exists iq' h' mp', Dequeue clk iq h mp = Returned (iq', h', a, mp')) /\
      (Dequeue clk iq h mp = SelfLock ->
       In a q /\ merging_enabled iq = true /\ IsSaturated h a = false) /\
      (forall rest,
          q = a :: rest ->
          merging_enabled iq = true ->
          IsSaturated h a = false ->
          aged_out (max_queue_delay_ns_ iq) clk 0%nat h a = true ->
          Dequeue clk iq h mp = SelfLock)).
Proof.
  split; [apply Dequeue_undefined_iff |].
  split.
  { rewrite Dequeue_undefined_iff. unfold Empty.
    destruct (payload_queue_ iq); split;
      (reflexivity || discriminate). }
  intros a q Eq. split; [| split; [| split]].
  - intros iq' h' a' mp' E.
    destruct (Dequeue_inv clk iq iq' h h' mp mp' a a' q Eq E)
      as [q' [ms [_ [Ha _]]]].
    exact Ha.
  - now apply Dequeue_returns.
  - now apply Dequeue_self_lock.
  - intros rest Hq Eon Esat Ea. subst q.
    now apply (Dequeue_relock_front clk iq h mp a rest).
Qed.

(** C5.  A saturated dispatched payload is returned alone: the queue loses
    its front only and the vector is returned as it came.  No payload that
    a [Dequeue] has merged is saturated, and the call returns on every
    queue that does not hold the dispatched payload again.  In the loop,
    whatever the iteration, the store and the sizes, a saturated front ends
    the loop with the queue and the vector untouched. *)
Theorem saturation_blocks_merge (clk : nat -> Z) (iq : InstanceQueue)
    (h : Store) (mp : list ptr) (a : ptr) (q : list ptr) :
  payload_queue_ iq = a :: q ->
  (IsSaturated h a = true ->
   Dequeue clk iq h mp =
   Returned (with_queue iq q, SetState h a EXECUTING, a, mp)) /\
  (forall iq' h' a' mp',
      Dequeue clk iq h mp = Returned (iq', h', a', mp') ->
      exists ms,
        mp' = mp ++ ms /\ q = ms ++ payload_queue_ iq' /\
        forall m, In m ms -> IsSaturated h m = false) /\
  (~ In a q ->
   exists iq' h' mp', Dequeue clk iq h mp = Returned (iq', h', a, mp')) /\
  (forall n p st c rest merged,
      IsSaturated st c = true ->
      merge_loop (max_batch_size_ iq) (max_queue_delay_ns_ iq) clk n p st
        (c :: rest) merged = Some (st, c :: rest, merged)).
Proof.
  intro Eq. split; [| split; [| split]].
  - intro Hsat. apply Dequeue_no_merge; [exact Eq |].
    rewrite Hsat. apply andb_false_r.
  - intros iq' h' a' mp' E.
    destruct (Dequeue_inv clk iq iq' h h' mp mp' a a' q Eq E)
      as [q' [ms [-> [_ [-> [Hq [_ [_ [_ Hall]]]]]]]]].
    exists ms. split; [reflexivity | split; [exact Hq |]].
    intros m Hin. apply In_nth_error in Hin. destruct Hin as [i Hi].
    apply Hall in Hi. now apply aged_out_true in Hi.
  - now apply Dequeue_returns.
  - intros n p st c rest merged Hsat. apply merge_loop_not_aged.
    unfold aged_out. now rewrite Hsat.
Qed.

(** C2.  Taking as the time [T] at which a payload was enqueued the
    timestamp it carries ([BatcherStartNs]) and as [T'] the clock reading of
    the loop turn that looks at it: every payload that a [Dequeue] has
    merged has an age, the unsigned 64-bit difference [T' - T] the code
    computes, strictly above [max_queue_delay_ns_], and for a timestamp not
    ahead of the clock that age is the plain difference; the call returns on
    every queue that does not hold the dispatched payload again.  A front
    whose age does not exceed the delay ends the loop, at any turn, with the
    queue and the vector untouched; when it is the first candidate the whole
    call returns the dispatched payload alone and the candidate is the new
    front. *)
Theorem merge_only_when_aged (clk : nat -> Z) (iq : InstanceQueue)
    (h : Store) (mp : list ptr) (a : ptr) (q : list ptr) :
  payload_queue_ iq = a :: q ->
  (forall iq' h' a' mp',
      Dequeue clk iq h mp = Returned (iq', h', a', mp') ->
      exists ms,
        mp' = mp ++ ms /\ q = ms ++ payload_queue_ iq' /\
        forall i m, nth_error ms i = Some m ->
          max_queue_delay_ns_ iq <
            uint64_sub (to_uint64 (clk i)) (BatcherStartNs h m) /\
          (BatcherStartNs h m <= to_uint64 (clk i) ->
           max_queue_delay_ns_ iq < to_uint64 (clk i) - BatcherStartNs h m)) /\
  (~ In a q ->
   exists iq' h' mp', Dequeue clk iq h mp = Returned (iq', h', a, mp')) /\
  (forall n p st c rest merged,
      uint64_sub (to_uint64 (clk n)) (BatcherStartNs st c)
        <= max_queue_delay_ns_ iq ->
      merge_loop (max_batch_size_ iq) (max_queue_delay_ns_ iq) clk n p st
        (c :: rest) merged = Some (st, c :: rest, merged)) /\
  (forall c rest,
      q = c :: rest ->
      uint64_sub (to_uint64 (clk 0%nat)) (BatcherStartNs h c)
        <= max_queue_delay_ns_ iq ->
      Dequeue clk iq h mp =
      Returned (with_queue iq (c :: rest), SetState h a EXECUTING, a, mp)).
Proof.
  intro Eq.
  assert (Hfresh : forall n st c,
             uint64_sub (to_uint64 (clk n)) (BatcherStartNs st c)
               <= max_queue_delay_ns_ iq ->
             aged_out (max_queue_delay_ns_ iq) clk n st c = false).
  { intros n st c Hage. unfold aged_out.
    apply andb_false_iff. right. apply Z.ltb_ge. exact Hage. }
  split; [| split; [| split]].
  - intros iq' h' a' mp' E.
    destruct (Dequeue_inv clk iq iq' h h' mp mp' a a' q Eq E)
      as [q' [ms [-> [_ [-> [Hq [_ [_ [_ Hall]]]]]]]]].
    exists ms. split; [reflexivity | split; [exact Hq |]].
    intros i m Hi. apply Hall in Hi. apply aged_out_true in Hi.
    destruct Hi as [_ Hage]. split; [exact Hage |].
    intro Hle. rewrite uint64_sub_no_wrap in Hage; [exact Hage | |].
    + split; [apply BatcherStartNs_range | exact Hle].
    + apply to_uint64_range.
  - now apply Dequeue_returns.
  - intros n p st c rest merged Hage. apply merge_loop_not_aged.
    now apply Hfresh.
  - intros c rest -> Hage. apply Dequeue_front_not_aged; [exact Eq |].
    now apply Hfresh.
Qed.

Lemma MergePayload_status (h : Store) (p c : ptr) :
  snd (MergePayload h p c) = compatible h p c.
Proof. unfold MergePayload. now destruct (compatible h p c). Qed.

Lemma aged_out_SetState (mqd : Z) (clk : nat -> Z) (n : nat) (h : Store)
    (a c : ptr) (s : PayloadState) :
  aged_out mqd clk n (SetState h a s) c = aged_out mqd clk n h c.
Proof. apply aged_out_same_marks, same_marks_SetState. Qed.

Lemma fits_SetState (mbs : Z) (p : ptr) (h : Store) (a c : ptr)
    (s : PayloadState) :
  fits mbs p (SetState h a s) c = fits mbs p h c.
Proof. unfold fits. now rewrite !SetState_BatchSize. Qed.

(** A turn that merges its front [d], a payload other than the dispatched
    one: the loop goes on with the rest.  So a loop that returns has [d] as
    the next entry of its vector, and it returns when the rest does not
    hold the dispatched payload. *)
Lemma merge_loop_takes_front (mbs mqd : Z) (clk : nat -> Z) (n : nat)
    (p : ptr) (st : Store) (d : ptr) (q merged : list ptr) :
  aged_out mqd clk n st d = true ->
  d <> p ->
  fits mbs p st d = true ->
  snd (MergePayload (SetState st d EXECUTING) p d) = true ->
  merge_loop mbs mqd clk n p st (d :: q) merged =
    merge_loop mbs mqd clk (S n) p
      (fst (MergePayload (SetState st d EXECUTING) p d)) q (merged ++ [d]) /\
  (forall st' q' mp',
      merge_loop mbs mqd clk n p st (d :: q) merged = Some (st', q', mp') ->
      exists more, mp' = merged ++ d :: more /\ q = more ++ q') /\
  (~ In p q ->
   exists st' q' more,
     merge_loop mbs mqd clk n p st (d :: q) merged =
     Some (st', q', merged ++ d :: more) /\ q = more ++ q').
Proof.
  intros Ea Hne Ef Eok. rewrite MergePayload_status in Eok.
  pose proof (merge_loop_merged mbs mqd clk p n st d q merged Ea Hne Ef Eok)
    as Estep.
  split; [exact Estep | split].
  - intros st' q' mp' E. rewrite Estep in E.
    apply merge_loop_split in E. destruct E as [more [-> ->]].
    exists more. now rewrite <- app_assoc.
  - intro Hp. rewrite Estep.
    destruct (merge_loop_returns mbs mqd clk p q (S n)
                (fst (MergePayload (SetState st d EXECUTING) p d))
                (merged ++ [d]) Hp) as [st' [q' [mp' E]]].
    rewrite E. apply merge_loop_split in E. destruct E as [more [-> ->]].
    exists st', q', more. now rewrite <- app_assoc.
Qed.

(** The same for the first candidate of a call. *)
Lemma Dequeue_takes_front (clk : nat -> Z) (iq : InstanceQueue) (h : Store)
    (mp : list ptr) (a c : ptr) (rest : list ptr) :
  payload_queue_ iq = a :: c :: rest ->
  a <> c ->
  merging_enabled iq = true ->
  IsSaturated h a = false ->
  aged_out (max_queue_delay_ns_ iq) clk 0%nat h c = true ->
  fits (max_batch_size_ iq) a h c = true ->
  snd (MergePayload (SetState (SetState h a EXECUTING) c EXECUTING) a c)
    = true ->
  (forall iq' h' a' mp',
      Dequeue clk iq h mp = Returned (iq', h', a', mp') ->
      exists more, mp' = mp ++ c :: more /\
                   rest = more ++ payload_queue_ iq') /\
  (~ In a rest ->
   exists iq' h' more,
     Dequeue clk iq h mp = Returned (iq', h', a, mp ++ c :: more) /\
     rest = more ++ payload_queue_ iq').
Proof.
  intros Eq Hne Eon Esat Ea Ef Eok.
  assert (Hca : c <> a) by (intro H; now apply Hne).
  destruct (merge_loop_takes_front (max_batch_size_ iq)
              (max_queue_delay_ns_ iq) clk 0%nat a (SetState h a EXECUTING)
              c rest mp) as [_ [Hcond Hret]]; try assumption.
  { now rewrite aged_out_SetState. }
  { now rewrite fits_SetState. }
  rewrite (Dequeue_merge clk iq h mp a c rest Eq Eon Esat). split.
  - intros iq' h' a' mp' E.
    destruct (merge_loop (max_batch_size_ iq) (max_queue_delay_ns_ iq) clk
                0%nat a (SetState h a EXECUTING) (c :: rest) mp)
      as [[[h1 q1] mp1]|]; [| discriminate E].
    inversion E; subst.
    destruct (Hcond _ _ _ eq_refl) as [more [-> ->]]. now exists more.
  - intro Hp. destruct (Hret Hp) as [st' [q' [more [E Hq]]]].
    rewrite E. now exists (with_queue iq q'), st', more.
Qed.

(** C6.  When the merge of the front candidate [c], a payload other than
    the dispatched one, is attempted and [MergePayload] does not return ok,
    [Dequeue] still returns: the queue it leaves starts with [c], the vector
    is returned as it came, and [c] is in state EXECUTING.  The same holds
    at any turn of the loop: a failed merge ends the loop with the queue and
    the vector untouched and the candidate marked EXECUTING. *)
Theorem merge_failure_recovered (clk : nat -> Z) (iq : InstanceQueue)
    (h : Store) (mp : list ptr) (a c : ptr) (rest : list ptr) :
  payload_queue_ iq = a :: c :: rest ->
  a <> c ->
  merging_enabled iq = true ->
  IsSaturated h a = false ->
  aged_out (max_queue_delay_ns_ iq) clk 0%nat h c = true ->
  fits (max_batch_size_ iq) a h c = true ->
  snd (MergePayload (SetState (SetState h a EXECUTING) c EXECUTING) a c)
    = false ->
  (exists h',
      Dequeue clk iq h mp =
        Returned (with_queue iq (c :: rest), h', a, mp) /\
      GetState h' c = EXECUTING) /\
  (forall n p st d q merged,
      d <> p ->
      aged_out (max_queue_delay_ns_ iq) clk n st d = true ->
      fits (max_batch_size_ iq) p st d = true ->
      snd (MergePayload (SetState st d EXECUTING) p d) = false ->
      exists st',
        merge_loop (max_batch_size_ iq) (max_queue_delay_ns_ iq) clk n p st
          (d :: q) merged = Some (st', d :: q, merged) /\
        GetState st' d = EXECUTING).
Proof.
  intros Eq Hne Eon Esat Ea Ef Efail.
  assert (Hturn : forall n p st d q merged,
      d <> p ->
      aged_out (max_queue_delay_ns_ iq) clk n st d = true ->
      fits (max_batch_size_ iq) p st d = true ->
      snd (MergePayload (SetState st d EXECUTING) p d) = false ->
      exists st',
        merge_loop (max_batch_size_ iq) (max_queue_delay_ns_ iq) clk n p st
          (d :: q) merged = Some (st', d :: q, merged) /\
        GetState st' d = EXECUTING).
  { intros n p st d q merged Hd Ha Hf Hno.
    rewrite MergePayload_status in Hno.
    exists (SetState st d EXECUTING). split.
    - now apply merge_loop_merge_failed.
    - apply SetState_GetState. }
  split; [| exact Hturn].
  rewrite (Dequeue_merge clk iq h mp a c rest Eq Eon Esat).
  destruct (Hturn 0%nat a (SetState h a EXECUTING) c rest mp)
    as [h' [E Hst]].
  - intro H. now apply Hne.
  - now rewrite aged_out_SetState.
  - now rewrite fits_SetState.
  - exact Efail.
  - rewrite E. exists h'. now split.
Qed.

(** C3, as the code has it.  The sum of the two batch sizes is a [size_t]
    sum, taken modulo [2^64]; it is the plain sum whenever that is below
    [2^64].  A first candidate, other than the dispatched payload, for
    which this sum exceeds [max_batch_size_] is not merged: the call
    returns, the candidate is the front of the queue it leaves, and the
    vector is returned as it came.  A first candidate for which the sum is
    at most [max_batch_size_], the bound included, is merged when it is
    otherwise eligible and the merge succeeds: a call that returns has it
    as the next entry of the vector, and the call returns when the rest of
    the queue does not hold the dispatched payload.  Both hold at any turn
    of the loop for the batch size the dispatched payload has at that
    turn. *)
Theorem batch_size_cap (clk : nat -> Z) (iq : InstanceQueue)
    (h : Store) (mp : list ptr) (a c : ptr) (rest : list ptr) :
  payload_queue_ iq = a :: c :: rest ->
  a <> c ->
  (max_batch_size_ iq < size_t_add (BatchSize h a) (BatchSize h c) ->
   exists h',
     Dequeue clk iq h mp =
     Returned (with_queue iq (c :: rest), h', a, mp)) /\
  (size_t_add (BatchSize h a) (BatchSize h c) <= max_batch_size_ iq ->
   merging_enabled iq = true ->
   IsSaturated h a = false ->
   aged_out (max_queue_delay_ns_ iq) clk 0%nat h c = true ->
   snd (MergePayload (SetState (SetState h a EXECUTING) c EXECUTING) a c)
     = true ->
   (forall iq' h' a' mp',
       Dequeue clk iq h mp = Returned (iq', h', a', mp') ->
       exists more, mp' = mp ++ c :: more /\
                    rest = more ++ payload_queue_ iq') /\
   (~ In a rest ->
    exists iq' h' more,
      Dequeue clk iq h mp = Returned (iq', h', a, mp ++ c :: more) /\
      rest = more ++ payload_queue_ iq')) /\
  (BatchSize h a + BatchSize h c < UINT64_MOD ->
   size_t_add (BatchSize h a) (BatchSize h c) =
   BatchSize h a + BatchSize h c) /\
  (forall n p st d q merged,
      d <> p ->
      (max_batch_size_ iq < size_t_add (BatchSize st p) (BatchSize st d) ->
       exists st',
         merge_loop (max_batch_size_ iq) (max_queue_delay_ns_ iq) clk n p st
           (d :: q) merged = Some (st', d :: q, merged)) /\
      (size_t_add (BatchSize st p) (BatchSize st d) <= max_batch_size_ iq ->
       aged_out (max_queue_delay_ns_ iq) clk n st d = true ->
       snd (MergePayload (SetState st d EXECUTING) p d) = true ->
       merge_loop (max_batch_size_ iq) (max_queue_delay_ns_ iq) clk n p st
         (d :: q) merged =
       merge_loop (max_batch_size_ iq) (max_queue_delay_ns_ iq) clk (S n) p
         (fst (MergePayload (SetState st d EXECUTING) p d)) q
         (merged ++ [d]))).
Proof.
  intros Eq Hne.
  assert (Hover : forall n p st d q merged,
      d <> p ->
      max_batch_size_ iq < size_t_add (BatchSize st p) (BatchSize st d) ->
      exists st',
        merge_loop (max_batch_size_ iq) (max_queue_delay_ns_ iq) clk n p st
          (d :: q) merged = Some (st', d :: q, merged)).
  { intros n p st d q merged Hd Hgt.
    assert (Ef : fits (max_batch_size_ iq) p st d = false)
      by (unfold fits; now apply Z.leb_gt).
    destruct (aged_out (max_queue_delay_ns_ iq) clk n st d) eqn:Ea.
    - exists (SetState st d EXECUTING). now apply merge_loop_no_fit.
    - exists st. now apply merge_loop_not_aged. }
  split; [| split; [| split]].
  - intro Hgt.
    destruct (merging_enabled iq && negb (IsSaturated h a)) eqn:Eon.
    + apply andb_prop in Eon. destruct Eon as [Eon Esat].
      apply negb_true_iff in Esat.
      rewrite (Dequeue_merge clk iq h mp a c rest Eq Eon Esat).
      destruct (Hover 0%nat a (SetState h a EXECUTING) c rest mp)
        as [h' E].
      * intro H. now apply Hne.
      * now rewrite !SetState_BatchSize.
      * rewrite E. now exists h'.
    + exists (SetState h a EXECUTING). now apply Dequeue_no_merge.
  - intros Hle Eon Esat Ea Eok.
    apply (Dequeue_takes_front clk iq h mp a c rest); try assumption.
    unfold fits. now apply Z.leb_le.
  - intro Hsum. apply size_t_add_no_wrap; try apply BatchSize_range.
    exact Hsum.
  - intros n p st d q merged Hd. split.
    + now apply Hover.
    + intros Hle Ea Eok.
      apply (merge_loop_takes_front (max_batch_size_ iq)
               (max_queue_delay_ns_ iq) clk n p st d q merged);
        try assumption.
      unfold fits. now apply Z.leb_le.
Qed.

(** C10, as the code has it.  The age of a candidate is the unsigned
    64-bit difference of the clock reading and its timestamp.  When the
    timestamp is ahead of the reading by [d], the age is [2^64 - d], at any
    turn of the loop.  The first candidate then passes the age test exactly
    when it is not saturated and [max_queue_delay_ns_ < 2^64 - d].  Below
    that bound a first candidate other than the dispatched payload is merged
    if it fits and the merge succeeds: a call that returns has it as the
    next entry of the vector, and the call returns when the rest of the
    queue does not hold the dispatched payload.  From that bound on the
    candidate stays the front of the queue. *)
Theorem age_wraps_around (clk : nat -> Z) (iq : InstanceQueue)
    (h : Store) (mp : list ptr) (a c : ptr) (rest : list ptr) :
  payload_queue_ iq = a :: c :: rest ->
  to_uint64 (clk 0%nat) < BatcherStartNs h c ->
  uint64_sub (to_uint64 (clk 0%nat)) (BatcherStartNs h c) =
    UINT64_MOD - (BatcherStartNs h c - to_uint64 (clk 0%nat)) /\
  (aged_out (max_queue_delay_ns_ iq) clk 0%nat h c = true <->
   IsSaturated h c = false /\
   max_queue_delay_ns_ iq <
     UINT64_MOD - (BatcherStartNs h c - to_uint64 (clk 0%nat))) /\
  (max_queue_delay_ns_ iq <
     UINT64_MOD - (BatcherStartNs h c - to_uint64 (clk 0%nat)) ->
   a <> c ->
   merging_enabled iq = true ->
   IsSaturated h a = false ->
   IsSaturated h c = false ->
   fits (max_batch_size_ iq) a h c = true ->
   snd (MergePayload (SetState (SetState h a EXECUTING) c EXECUTING) a c)
     = true ->
   (forall iq' h' a' mp',
       Dequeue clk iq h mp = Returned (iq', h', a', mp') ->
       exists more, mp' = mp ++ c :: more /\
                    rest = more ++ payload_queue_ iq') /\
   (~ In a rest ->
    exists iq' h' more,
      Dequeue clk iq h mp = Returned (iq', h', a, mp ++ c :: more) /\
      rest = more ++ payload_queue_ iq')) /\
  (UINT64_MOD - (BatcherStartNs h c - to_uint64 (clk 0%nat))
     <= max_queue_delay_ns_ iq ->
   Dequeue clk iq h mp =
   Returned (with_queue iq (c :: rest), SetState h a EXECUTING, a, mp)) /\
  (forall n st d,
      to_uint64 (clk n) < BatcherStartNs st d ->
      uint64_sub (to_uint64 (clk n)) (BatcherStartNs st d) =
        UINT64_MOD - (BatcherStartNs st d - to_uint64 (clk n))).
Proof.
  intros Eq Hahead.
  assert (Hwrap : forall n st d,
      to_uint64 (clk n) < BatcherStartNs st d ->
      uint64_sub (to_uint64 (clk n)) (BatcherStartNs st d) =
        UINT64_MOD - (BatcherStartNs st d - to_uint64 (clk n))).
  { intros n st d Hlt. apply uint64_sub_wrap.
    - split; [apply to_uint64_range | exact Hlt].
    - apply BatcherStartNs_range. }
  pose proof (Hwrap 0%nat h c Hahead) as Hage.
  assert (Hiff : aged_out (max_queue_delay_ns_ iq) clk 0%nat h c = true <->
                 IsSaturated h c = false /\
                 max_queue_delay_ns_ iq <
                   UINT64_MOD - (BatcherStartNs h c - to_uint64 (clk 0%nat))).
  { rewrite aged_out_true, Hage. tauto. }
  split; [exact Hage | split; [exact Hiff | split; [| split; [| exact Hwrap]]]].
  - intros Hlt Hne Eon Esat Ec Ef Eok.
    apply (Dequeue_takes_front clk iq h mp a c rest); try assumption.
    apply Hiff. now split.
  - intro Hge. apply Dequeue_front_not_aged; [exact Eq |].
    apply not_true_is_false. intro Ea. apply Hiff in Ea. lia.
Qed.
(** ** Chains of merges *)

Lemma to_uint64_idem (z : Z) : to_uint64 (to_uint64 z) = to_uint64 z.
Proof. unfold to_uint64. apply Z.mod_mod. unfold UINT64_MOD. lia. Qed.

Lemma batch_total_nonneg (h : Store) (ms : list ptr) : 0 <= batch_total h ms.
Proof.
  induction ms as [|c ms IH]; simpl; [lia |].
  pose proof (BatchSize_range h c). lia.
Qed.

Lemma BatchSize_merged_self (h : Store) (p c : ptr) :
  compatible h p c = true ->
  BatchSize (fst (MergePayload h p c)) p =
  size_t_add (BatchSize h p) (BatchSize h c).
Proof.
  intro Ec. unfold MergePayload. rewrite Ec. simpl.
  unfold BatchSize at 1. rewrite store_set_same. simpl.
  unfold size_t_add. apply to_uint64_idem.
Qed.

Lemma BatchSize_merged_other (h : Store) (p c x : ptr) :
  x <> p -> BatchSize (fst (MergePayload h p c)) x = BatchSize h x.
Proof.
  intro Hne. unfold MergePayload. destruct (compatible h p c); simpl.
  - unfold BatchSize. now rewrite store_set_other.
  - reflexivity.
Qed.

Lemma batch_total_ext (h h' : Store) (ms : list ptr) :
  (forall x, In x ms -> BatchSize h' x = BatchSize h x) ->
  batch_total h' ms = batch_total h ms.
Proof.
  induction ms as [|c ms IH]; intro Hext; simpl; [reflexivity |].
  rewrite Hext by now left. rewrite IH; [reflexivity |].
  intros x Hx. apply Hext. now right.
Qed.

Lemma state_after_turn (p : ptr) (h : Store) (c x : ptr) :
  state_ (fst (MergePayload (SetState h c EXECUTING) p c) x) =
  state_ (SetState h c EXECUTING x).
Proof. eapply MergePayload_state. apply surjective_pairing. Qed.

Lemma SetState_state_other (h : Store) (c x : ptr) (s : PayloadState) :
  x <> c -> state_ (SetState h c s x) = state_ (h x).
Proof. intro Hne. unfold SetState. now rewrite store_set_other. Qed.

Lemma SetState_keeps_executing (h : Store) (c x : ptr) :
  state_ (h x) = EXECUTING -> state_ (SetState h c EXECUTING x) = EXECUTING.
Proof.
  intro Hx. destruct (Nat.eq_dec x c) as [-> | Hne].
  - apply SetState_GetState.
  - now rewrite SetState_state_other.
Qed.

Lemma absorbed_keeps_executing (p : ptr) (ms : list ptr) :
  forall st x,
    state_ (st x) = EXECUTING -> state_ (absorbed st p ms x) = EXECUTING.
Proof.
  induction ms as [|c ms IH]; intros st x Hx; simpl; [exact Hx |].
  apply IH. rewrite state_after_turn. now apply SetState_keeps_executing.
Qed.

Lemma absorbed_marks (p : ptr) (ms : list ptr) :
  forall st m, In m ms -> state_ (absorbed st p ms m) = EXECUTING.
Proof.
  induction ms as [|c ms IH]; intros st m Hm; [contradiction Hm |].
  simpl. destruct Hm as [<- | Hm].
  - apply absorbed_keeps_executing. rewrite state_after_turn.
    apply SetState_GetState.
  - now apply IH.
Qed.

(** The batch size of the receiver after a chain of accepted merges: the
    [size_t] sum of what it had and what the donors have. *)
Lemma absorbed_BatchSize (p : ptr) (ms : list ptr) :
  forall st,
    ~ In p ms ->
    (forall i c, nth_error ms i = Some c ->
       compatible (SetState (absorbed st p (firstn i ms)) c EXECUTING) p c
       = true) ->
    BatchSize (absorbed st p ms) p =
    to_uint64 (BatchSize st p + batch_total st ms).
Proof.
  induction ms as [|c ms IH]; intros st Hp Hok; simpl.
  - rewrite Z.add_0_r. unfold BatchSize. now rewrite to_uint64_idem.
  - assert (Ec : compatible (SetState st c EXECUTING) p c = true)
      by exact (Hok 0%nat c eq_refl).
    assert (Hq : ~ In p ms) by (intro H; apply Hp; now right).
    rewrite IH.
    + rewrite BatchSize_merged_self by exact Ec.
      rewrite !SetState_BatchSize.
      rewrite (batch_total_ext st).
      * unfold size_t_add, to_uint64.
        rewrite Zplus_mod_idemp_l. f_equal. ring.
      * intros x Hx. rewrite BatchSize_merged_other.
        -- apply SetState_BatchSize.
        -- intros ->. now apply Hq.
    + exact Hq.
    + intros i x Hi. exact (Hok (S i) x Hi).
Qed.

(** A run [ms] of candidates, none of them the dispatched payload, all
    unsaturated, each aged past the delay at the reading of its turn, with
    batch sizes that fit together with the dispatched payload's, and each
    accepted by [MergePayload] in the store of its turn, is absorbed turn
    after turn: the loop on the whole queue is the loop on what follows
    [ms], in the store the merges have left. *)
Lemma merge_loop_chain (mbs mqd : Z) (clk : nat -> Z) (p : ptr)
    (rest : list ptr) (ms : list ptr) :
  forall n st merged,
    ~ In p ms ->
    (forall c, In c ms -> IsSaturated st c = false) ->
    (forall i c, nth_error ms i = Some c ->
       mqd < uint64_sub (to_uint64 (clk (n + i)%nat)) (BatcherStartNs st c)) ->
    BatchSize st p + batch_total st ms <= mbs ->
    (forall i c, nth_error ms i = Some c ->
       compatible (SetState (absorbed st p (firstn i ms)) c EXECUTING) p c
       = true) ->
    merge_loop mbs mqd clk n p st (ms ++ rest) merged =
    merge_loop mbs mqd clk (n + length ms) p (absorbed st p ms) rest
      (merged ++ ms).
Proof.
  induction ms as [|c ms IH]; intros n st merged Hp Hsat Hage Hsum Hok.
  - simpl. now rewrite Nat.add_0_r, app_nil_r.
  - simpl in Hsum.
    pose proof (BatchSize_range st p) as Rp.
    pose proof (BatchSize_range st c) as Rc.
    pose proof (batch_total_nonneg st ms) as Rms.
    assert (Ea : aged_out mqd clk n st c = true).
    { apply aged_out_true. split; [apply Hsat; now left |].
      specialize (Hage 0%nat c eq_refl). now rewrite Nat.add_0_r in Hage. }
    assert (Hne : c <> p) by (intros ->; apply Hp; now left).
    assert (Ef : fits mbs p st c = true).
    { unfold fits. apply Z.leb_le.
      pose proof (size_t_add_le (BatchSize st p) (BatchSize st c)). lia. }
    assert (Ec : compatible (SetState st c EXECUTING) p c = true)
      by exact (Hok 0%nat c eq_refl).
    rewrite <- app_comm_cons, merge_loop_merged by assumption.
    set (st2 := fst (MergePayload (SetState st c EXECUTING) p c)).
    assert (Hm : same_marks st st2) by apply same_marks_turn.
    assert (Hpc : ~ In p ms) by (intro Hin; apply Hp; now right).
    rewrite (IH (S n) st2 (merged ++ [c])).
    + simpl length. now rewrite <- app_assoc, Nat.add_succ_r.
    + exact Hpc.
    + intros x Hx. unfold IsSaturated. rewrite (proj1 (Hm x)).
      apply Hsat. now right.
    + intros i x Hi. unfold BatcherStartNs. rewrite (proj2 (Hm x)).
      specialize (Hage (S i) x Hi). rewrite Nat.add_succ_r in Hage.
      exact Hage.
    + assert (E1 : BatchSize st2 p =
                   size_t_add (BatchSize st p) (BatchSize st c)).
      { unfold st2. rewrite BatchSize_merged_self by exact Ec.
        now rewrite !SetState_BatchSize. }
      assert (E2 : batch_total st2 ms = batch_total st ms).
      { apply batch_total_ext. intros x Hx. unfold st2.
        rewrite BatchSize_merged_other.
        - apply SetState_BatchSize.
        - intros ->. now apply Hpc. }
      pose proof (size_t_add_le (BatchSize st p) (BatchSize st c)). lia.
    + intros i x Hi. exact (Hok (S i) x Hi).
Qed.

(** The merge branch as the loop on the whole rest of the queue. *)
Lemma Dequeue_loop (clk : nat -> Z) (iq : InstanceQueue) (h : Store)
    (mp : list ptr) (a : ptr) (q : list ptr) :
  payload_queue_ iq = a :: q ->
  merging_enabled iq = true ->
  IsSaturated h a = false ->
  Dequeue clk iq h mp =
  match merge_loop (max_batch_size_ iq) (max_queue_delay_ns_ iq) clk 0%nat a
          (SetState h a EXECUTING) q mp with
  | Some (h', q', mp') => Returned (with_queue iq q', h', a, mp')
  | None => SelfLock
  end.
Proof.
  intros Eq Eon Esat. destruct q as [|c q].
  - now rewrite (Dequeue_single clk iq h mp a Eq).
  - now apply Dequeue_merge.
Qed.

(** ** What the loop does to the payloads *)

(** A loop that returns, on the state and the batch size of every payload.
    A payload changes state only by being marked EXECUTING, and only if it
    is merged or is the front the loop stops at; the merged ones are marked.
    The dispatched payload keeps its batch size when nothing is merged, and
    once something was merged that size is within the limit.  The front the
    loop stops at failed the age test, the fit test or the merge, all three
    as they evaluate in the final store. *)
Lemma merge_loop_effects (mbs mqd : Z) (clk : nat -> Z) (p : ptr)
    (q : list ptr) :
  forall n h merged h' q' merged',
    merge_loop mbs mqd clk n p h q merged = Some (h', q', merged') ->
    exists ms,
      merged' = merged ++ ms /\ q = ms ++ q' /\
      (forall x, state_ (h' x) = state_ (h x) \/
                 (state_ (h' x) = EXECUTING /\
                  (In x ms \/ hd_error q' = Some x))) /\
      (forall m, In m ms -> state_ (h' m) = EXECUTING) /\
      (ms = [] -> BatchSize h' p = BatchSize h p) /\
      (ms <> [] -> BatchSize h' p <= mbs) /\
      match q' with
      | [] => True
      | c :: _ =>
          aged_out mqd clk (n + length ms) h' c = false \/
          fits mbs p h' c = false \/ compatible h' p c = false
      end.
Proof.
  induction q as [|c q IH]; intros n h merged h' q' merged' E.
  - inversion E; subst. exists []. rewrite app_nil_r.
    split; [reflexivity | split; [reflexivity |]].
    split; [intro x; now left |].
    split; [intros m Hm; contradiction Hm |].
    split; [reflexivity |].
    split; [intro Hne; now contradiction Hne | exact I].
  - assert (Hstop : forall st,
        (forall x, state_ (st x) = state_ (h x) \/
                   (state_ (st x) = EXECUTING /\ x = c)) ->
        BatchSize st p = BatchSize h p ->
        aged_out mqd clk n st c = false \/
        fits mbs p st c = false \/ compatible st p c = false ->
        Some (st, c :: q, merged) = Some (h', q', merged') ->
        exists ms,
          merged' = merged ++ ms /\ c :: q = ms ++ q' /\
          (forall x, state_ (h' x) = state_ (h x) \/
                     (state_ (h' x) = EXECUTING /\
                      (In x ms \/ hd_error q' = Some x))) /\
          (forall m, In m ms -> state_ (h' m) = EXECUTING) /\
          (ms = [] -> BatchSize h' p = BatchSize h p) /\
          (ms <> [] -> BatchSize h' p <= mbs) /\
          match q' with
          | [] => True
          | d :: _ =>
              aged_out mqd clk (n + length ms) h' d = false \/
              fits mbs p h' d = false \/ compatible h' p d = false
          end).
    { intros st Hs Hb Hr Est. inversion Est; subst. exists [].
      rewrite app_nil_r.
      split; [reflexivity | split; [reflexivity |]].
      split.
      { intro x. destruct (Hs x) as [H | [H1 H2]]; [now left |].
        right. split; [exact H1 |]. right. simpl. now subst. }
      split; [intros m Hm; contradiction Hm |].
      split; [intros _; exact Hb |].
      split; [intro Hne; now contradiction Hne |].
      simpl. now rewrite Nat.add_0_r. }
    assert (Hmark : forall x,
        state_ (SetState h c EXECUTING x) = state_ (h x) \/
        (state_ (SetState h c EXECUTING x) = EXECUTING /\ x = c)).
    { intro x. destruct (Nat.eq_dec x c) as [-> | Hne].
      - right. split; [apply SetState_GetState | reflexivity].
      - left. now apply SetState_state_other. }
    destruct (merge_loop_turn mbs mqd clk p n h c q merged)
      as [[Ea T] | [[_ [_ T]] | [[_ [_ [Ef T]]] | [[_ [_ [_ [Ec T]]]]
                                                  | [_ [_ [Ef [Ec T]]]]]]]];
      rewrite T in E.
    + apply (Hstop h); [intro x; now left | reflexivity | now left | exact E].
    + discriminate E.
    + apply (Hstop (SetState h c EXECUTING)); [exact Hmark | | | exact E].
      * apply SetState_BatchSize.
      * right. left. now rewrite fits_SetState.
    + apply (Hstop (SetState h c EXECUTING)); [exact Hmark | | | exact E].
      * apply SetState_BatchSize.
      * now right; right.
    + apply IH in E.
      destruct E as [ms [-> [-> [HA [HB [HD [HE HG]]]]]]].
      assert (Hcap : BatchSize
                       (fst (MergePayload (SetState h c EXECUTING) p c)) p
                     <= mbs).
      { rewrite BatchSize_merged_self by exact Ec.
        rewrite !SetState_BatchSize. unfold fits in Ef.
        now apply Z.leb_le. }
      assert (Hc : state_ (h' c) = EXECUTING).
      { destruct (HA c) as [H | [H _]]; [| exact H].
        rewrite H, state_after_turn. apply SetState_GetState. }
      exists (c :: ms). rewrite <- app_assoc.
      split; [reflexivity | split; [reflexivity |]].
      split.
      { intro x. destruct (HA x) as [H | [H1 H2]].
        - rewrite state_after_turn in H.
          destruct (Hmark x) as [Hx | [_ ->]].
          + left. congruence.
          + right. split; [exact Hc | left; now left].
        - right. split; [exact H1 |].
          destruct H2 as [H2 | H2]; [left; now right | now right]. }
      split.
      { intros m [<- | Hm]; [exact Hc | now apply HB]. }
      split; [intro H; discriminate H |].
      split.
      { intros _. destruct ms as [|m ms].
        - now rewrite HD.
        - apply HE. discriminate. }
      destruct q' as [|d q']; [exact I |].
      simpl length. rewrite Nat.add_succ_r. exact HG.
Qed.

(** The same for a call that returns. *)
Lemma Dequeue_effects (clk : nat -> Z) (iq iq' : InstanceQueue)
    (h h' : Store) (mp mp' : list ptr) (a a' : ptr) (q : list ptr) :
  payload_queue_ iq = a :: q ->
  Dequeue clk iq h mp = Returned (iq', h', a', mp') ->
  exists q' ms,
    iq' = with_queue iq q' /\ a' = a /\ mp' = mp ++ ms /\ q = ms ++ q' /\
    ~ In a ms /\
    (forall x, state_ (h' x) = state_ (h x) \/
               (state_ (h' x) = EXECUTING /\
                (x = a \/ In x ms \/ hd_error q' = Some x))) /\
    state_ (h' a) = EXECUTING /\
    (forall m, In m ms -> state_ (h' m) = EXECUTING) /\
    (ms = [] -> BatchSize h' a = BatchSize h a) /\
    (ms <> [] -> BatchSize h' a <= max_batch_size_ iq) /\
    (merging_enabled iq = true -> IsSaturated h a = false ->
     match q' with
     | [] => True
     | c :: _ =>
         aged_out (max_queue_delay_ns_ iq) clk (length ms) h c = false \/
         fits (max_batch_size_ iq) a h' c = false \/
         compatible h' a c = false
     end).
Proof.
  intros Eq E.
  assert (Hmark : forall x,
      state_ (SetState h a EXECUTING x) = state_ (h x) \/
      (state_ (SetState h a EXECUTING x) = EXECUTING /\ x = a)).
  { intro x. destruct (Nat.eq_dec x a) as [-> | Hne].
    - right. split; [apply SetState_GetState | reflexivity].
    - left. now apply SetState_state_other. }
  destruct (merging_enabled iq && negb (IsSaturated h a)) eqn:Eon.
  - apply andb_prop in Eon. destruct Eon as [Eon Esat].
    apply negb_true_iff in Esat.
    rewrite (Dequeue_loop clk iq h mp a q Eq Eon Esat) in E.
    destruct (merge_loop (max_batch_size_ iq) (max_queue_delay_ns_ iq) clk
                0%nat a (SetState h a EXECUTING) q mp)
      as [[[h1 q1] mp1]|] eqn:El; [| discriminate E].
    injection E as <- <- <- <-.
    pose proof (merge_loop_inv _ _ _ _ _ _ _ _ _ _ _ El)
      as [ms0 [Hmp0 [Hq0 [Hm [Hp0 _]]]]].
    apply merge_loop_effects in El.
    destruct El as [ms [Hmp [Hq [HA [HB [HD [HE HG]]]]]]].
    assert (Hms : ms0 = ms).
    { apply (app_inv_head mp). now rewrite <- Hmp0, <- Hmp. }
    subst ms0.
    assert (Ha : state_ (h1 a) = EXECUTING).
    { destruct (HA a) as [H | [H _]]; [| exact H].
      rewrite H. apply SetState_GetState. }
    exists q1, ms.
    split; [reflexivity | split; [reflexivity | split; [exact Hmp |]]].
    split; [exact Hq | split; [exact Hp0 |]].
    split.
    { intro x. destruct (HA x) as [H | [H1 H2]].
      - destruct (Hmark x) as [Hx | [_ ->]].
        + left. congruence.
        + right. split; [exact Ha | now left].
      - right. split; [exact H1 | now right]. }
    split; [exact Ha |].
    split; [exact HB |].
    split.
    { intro Hnil. rewrite (HD Hnil). apply SetState_BatchSize. }
    split; [exact HE |].
    intros _ _. destruct q1 as [|d q1]; [exact I |].
    simpl in HG.
    rewrite (aged_out_same_marks _ _ (SetState h a EXECUTING)) in HG
      by exact Hm.
    now rewrite aged_out_SetState in HG.
  - rewrite (Dequeue_no_merge clk iq h mp a q Eq Eon) in E.
    injection E as <- <- <- <-. exists q, []. rewrite app_nil_r.
    split; [reflexivity | split; [reflexivity | split; [reflexivity |]]].
    split; [reflexivity | split; [intros [] |]].
    split.
    { intro x. destruct (Hmark x) as [H | [H1 H2]]; [now left |].
      right. split; [exact H1 | now left]. }
    split; [apply SetState_GetState |].
    split; [intros m Hm; contradiction Hm |].
    split; [intros _; apply SetState_BatchSize |].
    split; [intro Hne; now contradiction Hne |].
    intros E1 E2. rewrite E1, E2 in Eon. discriminate Eon.
Qed.

(** ** Greedy chaining *)

(** C7.  Let the queue hold the payload to dispatch, then a run [ms] of
    candidates that are not the dispatched payload itself, are not
    saturated, have each aged past the delay at the clock reading of their
    turn, fit together with the dispatched payload within
    [max_batch_size_], and are each accepted by [MergePayload] in the store
    of their turn.  One [Dequeue] call takes the whole run: its outcome is
    that of the loop resumed behind [ms], with [ms] appended to the vector
    front to back, in the store in which every member of [ms] is marked
    EXECUTING and the dispatched payload has the batch sizes of [ms] added
    to its own.  When the rest of the queue does not hold the dispatched
    payload the call returns, its vector continues with [ms], none of [ms]
    is left in the queue and all of [ms] are marked EXECUTING. *)
Theorem greedy_chaining (clk : nat -> Z) (iq : InstanceQueue)
    (h : Store) (mp : list ptr) (a : ptr) (ms rest : list ptr) :
  payload_queue_ iq = a :: ms ++ rest ->
  merging_enabled iq = true ->
  IsSaturated h a = false ->
  ~ In a ms ->
  (forall c, In c ms -> IsSaturated h c = false) ->
  (forall i c, nth_error ms i = Some c ->
     max_queue_delay_ns_ iq <
       uint64_sub (to_uint64 (clk i)) (BatcherStartNs h c)) ->
  BatchSize h a + batch_total h ms <= max_batch_size_ iq ->
  (forall i c, nth_error ms i = Some c ->
     snd (MergePayload
            (SetState (absorbed (SetState h a EXECUTING) a (firstn i ms))
               c EXECUTING) a c) = true) ->
  Dequeue clk iq h mp =
    match merge_loop (max_batch_size_ iq) (max_queue_delay_ns_ iq) clk
            (length ms) a (absorbed (SetState h a EXECUTING) a ms) rest
            (mp ++ ms) with
    | Some (h', q', mp') => Returned (with_queue iq q', h', a, mp')
    | None => SelfLock
    end /\
  (forall m, In m ms ->
     GetState (absorbed (SetState h a EXECUTING) a ms) m = EXECUTING) /\
  BatchSize (absorbed (SetState h a EXECUTING) a ms) a =
    to_uint64 (BatchSize h a + batch_total h ms) /\
  (~ In a rest ->
   exists iq' h' more,
     Dequeue clk iq h mp = Returned (iq', h', a, mp ++ ms ++ more) /\
     rest = more ++ payload_queue_ iq' /\
     (forall m, In m ms -> GetState h' m = EXECUTING) /\
     (more = [] ->
      BatchSize h' a = to_uint64 (BatchSize h a + batch_total h ms))).
Proof.
  intros Eq Eon Esat Ha Hsat Hage Hsum Hok.
  assert (Hok' : forall i c, nth_error ms i = Some c ->
             compatible
               (SetState (absorbed (SetState h a EXECUTING) a (firstn i ms))
                  c EXECUTING) a c = true).
  { intros i c Hi. rewrite <- MergePayload_status. now apply Hok. }
  assert (Htotal : batch_total (SetState h a EXECUTING) ms = batch_total h ms).
  { apply batch_total_ext. intros x _. apply SetState_BatchSize. }
  assert (Hsize : BatchSize (absorbed (SetState h a EXECUTING) a ms) a =
                  to_uint64 (BatchSize h a + batch_total h ms)).
  { rewrite absorbed_BatchSize by assumption.
    now rewrite SetState_BatchSize, Htotal. }
  assert (Hloop :
    merge_loop (max_batch_size_ iq) (max_queue_delay_ns_ iq) clk 0%nat a
      (SetState h a EXECUTING) (ms ++ rest) mp =
    merge_loop (max_batch_size_ iq) (max_queue_delay_ns_ iq) clk
      (length ms) a (absorbed (SetState h a EXECUTING) a ms) rest
      (mp ++ ms)).
  { apply (merge_loop_chain (max_batch_size_ iq) (max_queue_delay_ns_ iq)
             clk a rest ms 0%nat (SetState h a EXECUTING) mp).
    - exact Ha.
    - intros x Hx. rewrite SetState_IsSaturated. now apply Hsat.
    - intros i x Hi. rewrite SetState_BatcherStartNs. now apply Hage.
    - now rewrite SetState_BatchSize, Htotal.
    - exact Hok'. }
  assert (Hdeq :
    Dequeue clk iq h mp =
    match merge_loop (max_batch_size_ iq) (max_queue_delay_ns_ iq) clk
            (length ms) a (absorbed (SetState h a EXECUTING) a ms) rest
            (mp ++ ms) with
    | Some (h', q', mp') => Returned (with_queue iq q', h', a, mp')
    | None => SelfLock
    end).
  { rewrite (Dequeue_loop clk iq h mp a (ms ++ rest) Eq Eon Esat).
    now rewrite Hloop. }
  split; [exact Hdeq | split; [| split; [exact Hsize |]]].
  - intros m Hm. unfold GetState. now apply absorbed_marks.
  - intro Hrest. rewrite Hdeq.
    destruct (merge_loop_returns (max_batch_size_ iq)
                (max_queue_delay_ns_ iq) clk a rest (length ms)
                (absorbed (SetState h a EXECUTING) a ms) (mp ++ ms) Hrest)
      as [h' [q' [mp' E]]].
    rewrite E. apply merge_loop_effects in E.
    destruct E as [more [-> [Hq [HA [_ [HD _]]]]]].
    exists (with_queue iq q'), h', more. rewrite <- app_assoc.
    split; [reflexivity | split; [exact Hq | split]].
    + intros m Hm. unfold GetState.
      destruct (HA m) as [H | [H _]]; [| exact H].
      rewrite H. now apply absorbed_marks.
    + intro Hnil. now rewrite (HD Hnil).
Qed.

(** ** Call sequences *)

(** The calls that do not return: a [Dequeue] on an empty queue or one
    that asks for the exec mutex it holds, an increment or a decrement at
    the end of the range of [int], and a wait for a consumer when none is
    counted. *)
Lemma call_returns (w : World) (c : Call) :
  call w c = None <->
  match c with
  | CallDequeue clk =>
      payload_queue_ (fst w) = [] \/
      Dequeue clk (fst w) (snd w) [] = SelfLock
  | CallIncrementConsumerCount => INT_MAX <= WaitingConsumerCount (fst w)
  | CallDecrementConsumerCount => WaitingConsumerCount (fst w) <= INT_MIN
  | CallWaitForConsumer => WaitingConsumerCount (fst w) <= 0
  | _ => False
  end.
Proof.
  destruct w as [iq h]. unfold WaitingConsumerCount.
  destruct c; simpl; try (split; [discriminate | contradiction]).
  - pose proof (Dequeue_undefined_iff clk iq h []) as Hu.
    destruct (Dequeue clk iq h []) as [[[[iq1 h1] a] mp1] | |].
    + split; [discriminate |].
      intros [H | H]; [apply Hu in H |]; discriminate H.
    + split; [intros _; left; now apply Hu | reflexivity].
    + split; [intros _; now right | reflexivity].
  - unfold IncrementConsumerCount.
    destruct (Z.ltb_spec (waiting_consumer_count_ iq) INT_MAX).
    + split; [discriminate | lia].
    + now split.
  - unfold DecrementConsumerCount.
    destruct (Z.ltb_spec INT_MIN (waiting_consumer_count_ iq)).
    + split; [discriminate | lia].
    + now split.
  - unfold WaitForConsumer.
    destruct (Z.ltb_spec 0 (waiting_consumer_count_ iq)).
    + split; [discriminate | lia].
    + now split.
Qed.

Lemma run_app (cs1 cs2 : list Call) :
  forall w,
    run w (cs1 ++ cs2) =
    match run w cs1 with
    | Some (w1, rs1) =>
        match run w1 cs2 with
        | Some (w2, rs2) => Some (w2, rs1 ++ rs2)
        | None => None
        end
    | None => None
    end.
Proof.
  induction cs1 as [|c cs1 IH]; intro w; simpl.
  - destruct (run w cs2) as [[w2 rs2]|]; reflexivity.
  - destruct (call w c) as [[w1 r]|]; [| reflexivity].
    rewrite IH. destruct (run w1 cs1) as [[w' rs1]|]; [| reflexivity].
    destruct (run w' cs2) as [[w2 rs2]|]; reflexivity.
Qed.

Lemma run_firstn (cs : list Call) (w w' : World) (rs : list Reply) (k : nat) :
  run w cs = Some (w', rs) ->
  exists wk rk, run w (firstn k cs) = Some (wk, rk).
Proof.
  intro E. rewrite <- (firstn_skipn k cs), run_app in E.
  destruct (run w (firstn k cs)) as [[wk rk]|]; [| discriminate].
  now exists wk, rk.
Qed.

Lemma Dequeue_Some_inv (clk : nat -> Z) (iq iq' : InstanceQueue)
    (h h' : Store) (mp mp' : list ptr) (a : ptr) :
  Dequeue clk iq h mp = Returned (iq', h', a, mp') ->
  exists q q' ms,
    payload_queue_ iq = a :: q /\ iq' = with_queue iq q' /\
    mp' = mp ++ ms /\ q = ms ++ q'.
Proof.
  intro E. destruct (payload_queue_ iq) as [|b q] eqn:Eq.
  - rewrite Dequeue_empty in E by exact Eq. discriminate.
  - destruct (Dequeue_inv clk iq iq' h h' mp mp' b a q Eq E)
      as [q' [ms [Hiq [Ha [Hmp [Hq _]]]]]].
    subst a. exists q, q', ms. now repeat split.
Qed.

Lemma dispatched_cons (r : Reply) (rs : list Reply) :
  dispatched (r :: rs) = dispatched [r] ++ dispatched rs.
Proof.
  destruct r; simpl; rewrite ?app_nil_r; reflexivity.
Qed.

Lemma enqueued_cons (c : Call) (cs : list Call) :
  enqueued (c :: cs) = enqueued [c] ++ enqueued cs.
Proof. destruct c; reflexivity. Qed.

(** One call: what it hands back, followed by the queue it leaves, is the
    queue it found followed by what it was given. *)
Lemma call_queue (w w' : World) (c : Call) (r : Reply) :
  call w c = Some (w', r) ->
  dispatched [r] ++ payload_queue_ (fst w') =
  payload_queue_ (fst w) ++ enqueued [c].
Proof.
  destruct w as [iq h]. destruct c; simpl; intro E.
  - inversion E; subst. simpl. now rewrite app_nil_r.
  - inversion E; subst. simpl. now rewrite app_nil_r.
  - inversion E; subst. reflexivity.
  - destruct (Dequeue clk iq h []) as [[[[iq1 h1] a] mp1] | |] eqn:Ed;
      [| discriminate | discriminate].
    inversion E; subst.
    apply Dequeue_Some_inv in Ed.
    destruct Ed as [q [q' [ms [Eq [-> [-> ->]]]]]].
    rewrite Eq. simpl. now rewrite !app_nil_r.
  - destruct (IncrementConsumerCount iq) as [iq1|] eqn:Ei; [| discriminate].
    inversion E; subst. unfold IncrementConsumerCount in Ei.
    destruct (waiting_consumer_count_ iq <? INT_MAX); [| discriminate].
    inversion Ei; subst. simpl. now rewrite app_nil_r.
  - destruct (DecrementConsumerCount iq) as [iq1|] eqn:Ei; [| discriminate].
    inversion E; subst. unfold DecrementConsumerCount in Ei.
    destruct (INT_MIN <? waiting_consumer_count_ iq); [| discriminate].
    inversion Ei; subst. simpl. now rewrite app_nil_r.
  - destruct (WaitForConsumer iq); [| discriminate].
    inversion E; subst. simpl. now rewrite app_nil_r.
  - inversion E; subst. simpl. now rewrite app_nil_r.
Qed.

Lemma run_queue (cs : list Call) :
  forall w w' rs,
    run w cs = Some (w', rs) ->
    dispatched rs ++ payload_queue_ (fst w') =
    payload_queue_ (fst w) ++ enqueued cs.
Proof.
  induction cs as [|c cs IH]; intros w w' rs E; simpl in E.
  - inversion E; subst. simpl. now rewrite app_nil_r.
  - destruct (call w c) as [[w1 r]|] eqn:Ec; [| discriminate].
    destruct (run w1 cs) as [[w2 rs']|] eqn:Er; [| discriminate].
    inversion E; subst.
    rewrite dispatched_cons, enqueued_cons, <- app_assoc.
    rewrite (IH _ _ _ Er), !app_assoc. f_equal.
    now apply call_queue.
Qed.

(** C1.  Whatever the calls, the payloads handed back by the [Dequeue]
    calls so far (each dispatched payload followed by those merged into
    it), followed by the payloads still queued, are the payloads the queue
    held at the start followed by those enqueued, in that order.  Hence a
    payload occurs among the returned and the queued ones as often as it was
    put in, and none is returned twice when none was put in twice; for a
    queue that starts empty and ends empty, the returned payloads are the
    enqueued ones, each as often as it was enqueued. *)
Theorem exactly_once_dispatch (w w' : World) (cs : list Call)
    (rs : list Reply) :
  run w cs = Some (w', rs) ->
  dispatched rs ++ payload_queue_ (fst w') =
    payload_queue_ (fst w) ++ enqueued cs /\
  (forall a,
      (count_occ Nat.eq_dec (dispatched rs) a +
       count_occ Nat.eq_dec (payload_queue_ (fst w')) a =
       count_occ Nat.eq_dec (payload_queue_ (fst w)) a +
       count_occ Nat.eq_dec (enqueued cs) a)%nat) /\
  (NoDup (payload_queue_ (fst w) ++ enqueued cs) -> NoDup (dispatched rs)) /\
  (payload_queue_ (fst w) = [] ->
   payload_queue_ (fst w') = [] ->
   dispatched rs = enqueued cs /\
   forall a, count_occ Nat.eq_dec (dispatched rs) a =
             count_occ Nat.eq_dec (enqueued cs) a).
Proof.
  intro E. apply run_queue in E. split; [exact E | split; [| split]].
  - intro a. rewrite <- !count_occ_app.
    exact (f_equal (fun l => count_occ Nat.eq_dec l a) E).
  - intro Hnd. rewrite <- E in Hnd. now apply NoDup_app_remove_r in Hnd.
  - intros E0 E1. rewrite E0, E1, app_nil_r in E. simpl in E.
    split; [exact E | intro a; now rewrite E].
Qed.

(** *** First in, first out when merging is off *)

Lemma merging_disabled (iq : InstanceQueue) :
  max_queue_delay_ns_ iq = 0 \/ max_batch_size_ iq <= 1 ->
  merging_enabled iq = false.
Proof.
  intros [E | E]; unfold merging_enabled.
  - rewrite E. reflexivity.
  - apply andb_false_iff. right. apply Z.ltb_ge. exact E.
Qed.

Lemma run_enqueues (ps : list ptr) :
  forall iq h,
    run (iq, h) (map CallEnqueue ps) =
    Some ((with_queue iq (payload_queue_ iq ++ ps), h),
          map (fun _ => RetVoid) ps).
Proof.
  induction ps as [|a ps IH]; intros iq h; simpl.
  - rewrite app_nil_r. now destruct iq.
  - rewrite IH. unfold Enqueue, with_queue. simpl.
    now rewrite <- app_assoc.
Qed.

Lemma run_dequeues_no_merge (iq : InstanceQueue) (ps : list ptr) :
  merging_enabled iq = false ->
  forall clks h,
    length clks = length ps ->
    exists h',
      run (with_queue iq ps, h) (map CallDequeue clks) =
      Some ((with_queue iq [], h'), map (fun a => RetDequeue a []) ps).
Proof.
  intro Eoff. induction ps as [|a ps IH]; intros clks h Hlen.
  - destruct clks; [| discriminate]. now exists h.
  - destruct clks as [|clk clks]; [discriminate |].
    injection Hlen as Hlen. simpl.
    rewrite (Dequeue_no_merge clk (with_queue iq (a :: ps)) h [] a ps).
    + destruct (IH clks (SetState h a EXECUTING) Hlen) as [h' E].
      exists h'. unfold with_queue in *. simpl in *. now rewrite E.
    + reflexivity.
    + change (merging_enabled (with_queue iq (a :: ps)))
        with (merging_enabled iq).
      now rewrite Eoff.
Qed.

(** C4.  With merging off ([max_queue_delay_ns_ = 0] or
    [max_batch_size_ <= 1]), [N] calls of [Enqueue] on an empty queue
    followed by [N] calls of [Dequeue] all return, the [i]-th [Dequeue]
    hands back the [i]-th enqueued payload with an empty vector, and the
    queue is empty again.  More generally no [Dequeue] of such a queue adds
    to the vector it is given. *)
Theorem fifo_without_merge (iq : InstanceQueue) (h : Store)
    (ps : list ptr) (clks : list (nat -> Z)) :
  payload_queue_ iq = [] ->
  max_queue_delay_ns_ iq = 0 \/ max_batch_size_ iq <= 1 ->
  length clks = length ps ->
  (exists h',
      run (iq, h) (map CallEnqueue ps ++ map CallDequeue clks) =
      Some ((iq, h'),
            map (fun _ => RetVoid) ps ++ map (fun a => RetDequeue a []) ps)) /\
  (forall clk st mp a q,
      Dequeue clk (with_queue iq (a :: q)) st mp =
      Returned (with_queue iq q, SetState st a EXECUTING, a, mp)).
Proof.
  intros Eq Eoff Hlen. apply merging_disabled in Eoff. split.
  - rewrite run_app, run_enqueues, Eq. simpl app.
    destruct (run_dequeues_no_merge iq ps Eoff clks h Hlen) as [h' E].
    rewrite E. exists h'.
    replace (with_queue iq []) with iq; [reflexivity |].
    destruct iq. simpl in Eq. now subst.
  - intros clk st mp a q.
    rewrite (Dequeue_no_merge clk (with_queue iq (a :: q)) st mp a q).
    + reflexivity.
    + reflexivity.
    + change (merging_enabled (with_queue iq (a :: q)))
        with (merging_enabled iq).
      now rewrite Eoff.
Qed.

(** *** The consumer counter *)

Lemma call_count (w w' : World) (c : Call) (r : Reply) :
  call w c = Some (w', r) ->
  WaitingConsumerCount (fst w') =
  WaitingConsumerCount (fst w) + net_consumers [c].
Proof.
  destruct w as [iq h]. unfold WaitingConsumerCount.
  destruct c; simpl; intro E.
  - inversion E; subst. simpl. lia.
  - inversion E; subst. simpl. lia.
  - inversion E; subst. simpl. lia.
  - destruct (Dequeue clk iq h []) as [[[[iq1 h1] a] mp1] | |] eqn:Ed;
      [| discriminate | discriminate].
    inversion E; subst.
    apply Dequeue_Some_inv in Ed.
    destruct Ed as [q [q' [ms [_ [-> _]]]]]. simpl. lia.
  - unfold IncrementConsumerCount in E.
    destruct (waiting_consumer_count_ iq <? INT_MAX); [| discriminate].
    inversion E; subst. simpl. lia.
  - unfold DecrementConsumerCount in E.
    destruct (INT_MIN <? waiting_consumer_count_ iq); [| discriminate].
    inversion E; subst. simpl. lia.
  - destruct (WaitForConsumer iq); [| discriminate].
    inversion E; subst. simpl. lia.
  - inversion E; subst. simpl. lia.
Qed.

Lemma net_consumers_cons (c : Call) (cs : list Call) :
  net_consumers (c :: cs) = net_consumers [c] + net_consumers cs.
Proof. destruct c; simpl; lia. Qed.

Lemma run_count (cs : list Call) :
  forall w w' rs,
    run w cs = Some (w', rs) ->
    WaitingConsumerCount (fst w') =
    WaitingConsumerCount (fst w) + net_consumers cs.
Proof.
  induction cs as [|c cs IH]; intros w w' rs E; simpl in E.
  - inversion E; subst. simpl. lia.
  - destruct (call w c) as [[w1 r]|] eqn:Ec; [| discriminate].
    destruct (run w1 cs) as [[w2 rs']|] eqn:Er; [| discriminate].
    inversion E; subst.
    rewrite net_consumers_cons, (IH _ _ _ Er), (call_count _ _ _ _ Ec). lia.
Qed.

Lemma balanced_net (cs : list Call) :
  forall n, 0 <= n -> balanced n cs = true -> 0 <= n + net_consumers cs.
Proof.
  induction cs as [|c cs IH]; intros n Hn Hb;
    cbn [net_consumers balanced] in *; [lia |].
  destruct c; try (now apply IH).
  - specialize (IH (n + 1) ltac:(lia) Hb). lia.
  - apply andb_prop in Hb. destruct Hb as [Hpos Hb].
    apply Z.ltb_lt in Hpos. specialize (IH (n - 1) ltac:(lia) Hb). lia.
Qed.

Lemma balanced_firstn (cs : list Call) :
  forall n k, balanced n cs = true -> balanced n (firstn k cs) = true.
Proof.
  induction cs as [|c cs IH]; intros n k Hb.
  - now destruct k.
  - destruct k as [|k]; [reflexivity |].
    destruct c; simpl in *; try (now apply IH).
    apply andb_prop in Hb. destruct Hb as [Hpos Hb].
    rewrite Hpos. now apply IH.
Qed.

(** C8, as the code has it.  Of all the calls only
    [IncrementConsumerCount] and [DecrementConsumerCount] change the
    counter, and after any run it is the initial value plus the number of
    increments minus the number of decrements.  Nothing keeps it from going
    below zero: it is non-negative after every prefix of the run provided it
    started non-negative and no decrement was made at zero. *)
Theorem consumer_count_is_net (w w' : World) (cs : list Call)
    (rs : list Reply) :
  run w cs = Some (w', rs) ->
  WaitingConsumerCount (fst w') =
    WaitingConsumerCount (fst w) + net_consumers cs /\
  (forall k, exists wk rk,
      run w (firstn k cs) = Some (wk, rk) /\
      WaitingConsumerCount (fst wk) =
        WaitingConsumerCount (fst w) + net_consumers (firstn k cs) /\
      (0 <= WaitingConsumerCount (fst w) ->
       balanced (WaitingConsumerCount (fst w)) cs = true ->
       0 <= WaitingConsumerCount (fst wk))) /\
  (forall c w1 r,
      call w c = Some (w1, r) ->
      c <> CallIncrementConsumerCount ->
      c <> CallDecrementConsumerCount ->
      WaitingConsumerCount (fst w1) = WaitingConsumerCount (fst w)).
Proof.
  intro E. split; [| split].
  - now apply run_count in E.
  - intro k. destruct (run_firstn cs w w' rs k E) as [wk [rk Ek]].
    exists wk, rk. split; [exact Ek |].
    pose proof (run_count _ _ _ _ Ek) as Hk. split; [exact Hk |].
    intros H0 Hb. rewrite Hk. apply balanced_net; [exact H0 |].
    now apply balanced_firstn.
  - intros c w1 r Ec Hi Hd. rewrite (call_count _ _ _ _ Ec).
    destruct c; simpl; try lia; contradiction.
Qed.


(** ** What a call does to the payloads *)

(** X1.  Every payload a returning [Dequeue] hands back, the dispatched one
    (line 66) and each merged one (line 83), is in state EXECUTING when the
    call returns; and the call returns when the dispatched payload is not
    queued a second time. *)
Theorem returned_payloads_are_executing (clk : nat -> Z) (iq : InstanceQueue)
    (h : Store) (mp : list ptr) (a : ptr) (q : list ptr) :
  payload_queue_ iq = a :: q ->
  (forall iq' h' a' mp',
     Dequeue clk iq h mp = Returned (iq', h', a', mp') ->
     exists ms,
       a' = a /\ mp' = mp ++ ms /\ q = ms ++ payload_queue_ iq' /\
       GetState h' a = EXECUTING /\
       forall m, In m ms -> GetState h' m = EXECUTING) /\
  (~ In a q ->
   exists iq' h' mp', Dequeue clk iq h mp = Returned (iq', h', a, mp')).
Proof.
  intro Eq. split; [| now apply Dequeue_returns].
  intros iq' h' a' mp' E.
  destruct (Dequeue_effects clk iq iq' h h' mp mp' a a' q Eq E)
    as [q' [ms [-> [Ha [Hmp [Hq [_ [_ [Hs [Hms _]]]]]]]]]].
  exists ms. now repeat split.
Qed.

(** X2.  A returning [Dequeue] changes the state of no payload other than
    the dispatched one, the merged ones and the payload left at the front of
    the queue, and the only change it makes is to EXECUTING; and the call
    returns when the dispatched payload is not queued a second time. *)
Theorem Dequeue_state_frame (clk : nat -> Z) (iq : InstanceQueue)
    (h : Store) (mp : list ptr) (a : ptr) (q : list ptr) :
  payload_queue_ iq = a :: q ->
  (forall iq' h' a' mp',
     Dequeue clk iq h mp = Returned (iq', h', a', mp') ->
     exists ms,
       a' = a /\ mp' = mp ++ ms /\ q = ms ++ payload_queue_ iq' /\
       forall x, GetState h' x <> GetState h x ->
                 GetState h' x = EXECUTING /\
                 (x = a \/ In x ms \/
                  hd_error (payload_queue_ iq') = Some x)) /\
  (~ In a q ->
   exists iq' h' mp', Dequeue clk iq h mp = Returned (iq', h', a, mp')).
Proof.
  intro Eq. split; [| now apply Dequeue_returns].
  intros iq' h' a' mp' E.
  destruct (Dequeue_effects clk iq iq' h h' mp mp' a a' q Eq E)
    as [q' [ms [-> [Ha [Hmp [Hq [_ [HA _]]]]]]]].
  exists ms.
  split; [exact Ha | split; [exact Hmp | split; [exact Hq |]]].
  intros x Hx. unfold GetState in *. simpl.
  destruct (HA x) as [H | H]; [contradiction | exact H].
Qed.

(** X3.  The candidate is marked EXECUTING (line 83) before the fit test
    (line 85): a first candidate, not the dispatched payload itself, that
    has aged past the delay but does not fit stays at the front of the
    queue, is not added to the vector, and is left in state EXECUTING. *)
Theorem unfit_candidate_marked_executing (clk : nat -> Z)
    (iq : InstanceQueue) (h : Store) (mp : list ptr) (a c : ptr)
    (rest : list ptr) :
  payload_queue_ iq = a :: c :: rest ->
  a <> c ->
  merging_enabled iq = true ->
  IsSaturated h a = false ->
  aged_out (max_queue_delay_ns_ iq) clk 0%nat h c = true ->
  fits (max_batch_size_ iq) a h c = false ->
  Dequeue clk iq h mp =
    Returned (with_queue iq (c :: rest),
              SetState (SetState h a EXECUTING) c EXECUTING, a, mp) /\
  GetState (SetState (SetState h a EXECUTING) c EXECUTING) c = EXECUTING.
Proof.
  intros Eq Hne Eon Esat Ea Ef. split; [| apply SetState_GetState].
  rewrite (Dequeue_merge clk iq h mp a c rest Eq Eon Esat).
  rewrite merge_loop_no_fit; [reflexivity | | |].
  - now rewrite aged_out_SetState.
  - intro H. now apply Hne.
  - now rewrite fits_SetState.
Qed.

(** X4.  With [MergePayload] adding the donor's batch size to the
    receiver's, as the spec has it: after a returning [Dequeue] that merged
    at least one payload, the batch size of the dispatched payload is at
    most [max_batch_size_]; after one that merged nothing it is what it
    was; and the call returns when the dispatched payload is not queued a
    second time. *)
Theorem merged_batch_within_limit (clk : nat -> Z) (iq : InstanceQueue)
    (h : Store) (mp : list ptr) (a : ptr) (q : list ptr) :
  payload_queue_ iq = a :: q ->
  (forall iq' h' a' mp',
     Dequeue clk iq h mp = Returned (iq', h', a', mp') ->
     exists ms,
       a' = a /\ mp' = mp ++ ms /\ q = ms ++ payload_queue_ iq' /\
       (ms <> [] -> BatchSize h' a <= max_batch_size_ iq) /\
       (ms = [] -> BatchSize h' a = BatchSize h a)) /\
  (~ In a q ->
   exists iq' h' mp', Dequeue clk iq h mp = Returned (iq', h', a, mp')).
Proof.
  intro Eq. split; [| now apply Dequeue_returns].
  intros iq' h' a' mp' E.
  destruct (Dequeue_effects clk iq iq' h h' mp mp' a a' q Eq E)
    as [q' [ms [-> [Ha [Hmp [Hq [_ [_ [_ [_ [HD [HE _]]]]]]]]]]]].
  exists ms. now repeat split.
Qed.

(** X5.  The merge is greedy to the end: when a returning [Dequeue] entered
    its merge branch, the payload it leaves at the front of the queue, if
    any, is one it could not take at that turn: saturated or not aged past
    the delay at the clock reading of the turn, or not fitting beside what
    the dispatched payload holds by then, or refused by [MergePayload]; and
    the call returns when the dispatched payload is not queued a second
    time. *)
Theorem Dequeue_merges_while_it_can (clk : nat -> Z) (iq : InstanceQueue)
    (h : Store) (mp : list ptr) (a : ptr) (q : list ptr) :
  payload_queue_ iq = a :: q ->
  merging_enabled iq = true ->
  IsSaturated h a = false ->
  (forall iq' h' a' mp',
     Dequeue clk iq h mp = Returned (iq', h', a', mp') ->
     exists ms,
       a' = a /\ mp' = mp ++ ms /\ q = ms ++ payload_queue_ iq' /\
       forall c rest,
         payload_queue_ iq' = c :: rest ->
         aged_out (max_queue_delay_ns_ iq) clk (length ms) h c = false \/
         fits (max_batch_size_ iq) a h' c = false \/
         snd (MergePayload h' a c) = false) /\
  (~ In a q ->
   exists iq' h' mp', Dequeue clk iq h mp = Returned (iq', h', a, mp')).
Proof.
  intros Eq Eon Esat. split; [| now apply Dequeue_returns].
  intros iq' h' a' mp' E.
  destruct (Dequeue_effects clk iq iq' h h' mp mp' a a' q Eq E)
    as [q' [ms [-> [Ha [Hmp [Hq [_ [_ [_ [_ [_ [_ HG]]]]]]]]]]]].
  exists ms.
  split; [exact Ha | split; [exact Hmp | split; [exact Hq |]]].
  intros c rest Hc. simpl in Hc. specialize (HG Eon Esat).
  rewrite Hc in HG. now rewrite MergePayload_status.
Qed.

(** ** Size and Empty *)

(** X6.  [Size] counts what came in and has not gone out: after any run of
    calls, the size plus the number of payloads handed back by [Dequeue] is
    the initial size plus the number of payloads enqueued.  One [Enqueue]
    adds one; one [Dequeue] takes away one and the number of payloads it
    appends to the vector. *)
Theorem Size_accounting (w w' : World) (cs : list Call) (rs : list Reply) :
  run w cs = Some (w', rs) ->
  Size (fst w') + Z.of_nat (length (dispatched rs)) =
    Size (fst w) + Z.of_nat (length (enqueued cs)) /\
  (forall iq payload, Size (Enqueue iq payload) = Size iq + 1) /\
  (forall clk iq h mp iq' h' a mp',
      Dequeue clk iq h mp = Returned (iq', h', a, mp') ->
      Size iq' =
      Size iq - 1 - (Z.of_nat (length mp') - Z.of_nat (length mp))).
Proof.
  intro E. split; [| split].
  - apply run_queue in E. apply (f_equal (@length ptr)) in E.
    rewrite !length_app in E. unfold Size. lia.
  - intros iq payload. unfold Size, Enqueue. simpl.
    rewrite length_app. simpl. lia.
  - intros clk iq h mp iq' h' a mp' Ed. apply Dequeue_Some_inv in Ed.
    destruct Ed as [q [q' [ms [Eq [-> [-> ->]]]]]].
    unfold Size. rewrite Eq. cbn [payload_queue_ with_queue length].
    rewrite !length_app. lia.
Qed.

(** X7.  A payload enqueued on a queue that [Empty] reports empty is
    dispatched alone by the next [Dequeue], whatever the limits, the clock
    and its saturation: the queue is as it was, the vector is returned as it
    came, and the payload is marked EXECUTING. *)
Theorem Enqueue_Dequeue_round_trip (clk : nat -> Z) (iq : InstanceQueue)
    (h : Store) (mp : list ptr) (payload : ptr) :
  Empty iq = true ->
  Dequeue clk (Enqueue iq payload) h mp =
  Returned (iq, SetState h payload EXECUTING, payload, mp).
Proof.
  intro Eq. destruct iq as [q b d n]. unfold Empty in Eq. simpl in Eq.
  destruct q as [|x q]; [reflexivity | discriminate Eq].
Qed.

(** ** The limits and the counter *)

Lemma call_limits (w w' : World) (c : Call) (r : Reply) :
  call w c = Some (w', r) ->
  max_batch_size_ (fst w') = max_batch_size_ (fst w) /\
  max_queue_delay_ns_ (fst w') = max_queue_delay_ns_ (fst w).
Proof.
  destruct w as [iq h]. destruct c; simpl; intro E.
  - inversion E; subst. now split.
  - inversion E; subst. now split.
  - inversion E; subst. now split.
  - destruct (Dequeue clk iq h []) as [[[[iq1 h1] a] mp1] | |] eqn:Ed;
      [| discriminate | discriminate].
    inversion E; subst. apply Dequeue_Some_inv in Ed.
    destruct Ed as [q [q' [ms [_ [-> _]]]]]. now split.
  - unfold IncrementConsumerCount in E.
    destruct (waiting_consumer_count_ iq <? INT_MAX); [| discriminate].
    inversion E; subst. now split.
  - unfold DecrementConsumerCount in E.
    destruct (INT_MIN <? waiting_consumer_count_ iq); [| discriminate].
    inversion E; subst. now split.
  - destruct (WaitForConsumer iq); [| discriminate].
    inversion E; subst. now split.
  - inversion E; subst. now split.
Qed.

(** X8.  No call changes [max_batch_size_] or [max_queue_delay_ns_]: after
    any run they are what the constructor stored, its two arguments as a
    [size_t] and a [uint64_t]. *)
Theorem limits_are_fixed (max_batch_size max_queue_delay_ns : Z) (h : Store)
    (w' : World) (cs : list Call) (rs : list Reply) :
  run (InstanceQueue_new max_batch_size max_queue_delay_ns, h) cs
    = Some (w', rs) ->
  max_batch_size_ (fst w') = max_batch_size mod 2 ^ 64 /\
  max_queue_delay_ns_ (fst w') = max_queue_delay_ns mod 2 ^ 64 /\
  (0 <= max_batch_size < 2 ^ 64 -> max_batch_size_ (fst w') = max_batch_size) /\
  (0 <= max_queue_delay_ns < 2 ^ 64 ->
   max_queue_delay_ns_ (fst w') = max_queue_delay_ns).
Proof.
  intro E.
  assert (Hrun : forall cs0 w0 w1 rs0,
             run w0 cs0 = Some (w1, rs0) ->
             max_batch_size_ (fst w1) = max_batch_size_ (fst w0) /\
             max_queue_delay_ns_ (fst w1) = max_queue_delay_ns_ (fst w0)).
  { induction cs0 as [|c cs0 IH]; intros w0 w1 rs0 E0; simpl in E0.
    - inversion E0; subst. now split.
    - destruct (call w0 c) as [[w2 r]|] eqn:Ec; [| discriminate].
      destruct (run w2 cs0) as [[w3 rs']|] eqn:Er; [| discriminate].
      inversion E0; subst.
      destruct (IH _ _ _ Er) as [H1 H2].
      destruct (call_limits _ _ _ _ Ec) as [H3 H4].
      split; congruence. }
  destruct (Hrun _ _ _ _ E) as [Hb Hd]. simpl in Hb, Hd.
  split; [exact Hb | split; [exact Hd | split]].
  - intro Hr. rewrite Hb. now apply to_uint64_small.
  - intro Hr. rewrite Hd. now apply to_uint64_small.
Qed.

(** X9.  After any run of calls, [WaitForConsumer] returns at once exactly
    when the initial count plus the increments minus the decrements of the
    run is positive, and it then leaves the queue and the payloads as they
    are; otherwise it waits. *)
Theorem WaitForConsumer_returns_iff (w w' : World) (cs : list Call)
    (rs : list Reply) :
  run w cs = Some (w', rs) ->
  (call w' CallWaitForConsumer = Some (w', RetVoid) <->
   0 < WaitingConsumerCount (fst w) + net_consumers cs) /\
  (call w' CallWaitForConsumer = None <->
   WaitingConsumerCount (fst w) + net_consumers cs <= 0).
Proof.
  intro E. apply run_count in E. rewrite <- E.
  destruct w' as [iq h]. unfold WaitingConsumerCount. simpl.
  unfold WaitForConsumer.
  destruct (Z.ltb_spec 0 (waiting_consumer_count_ iq)) as [Hpos | Hle].
  - split; split; intro H; try reflexivity; try assumption;
      try discriminate H; lia.
  - split; split; intro H; try reflexivity; try assumption;
      try discriminate H; lia.
Qed.

(** X10.  On a counter in the range of [int], a
    [DecrementConsumerCount] undoes an [IncrementConsumerCount] and the
    other way round: the queue is again what it was. *)
Theorem Increment_Decrement_round_trip (iq iq1 : InstanceQueue) :
  INT_MIN <= WaitingConsumerCount iq <= INT_MAX ->
  (IncrementConsumerCount iq = Some iq1 ->
   DecrementConsumerCount iq1 = Some iq) /\
  (DecrementConsumerCount iq = Some iq1 ->
   IncrementConsumerCount iq1 = Some iq).
Proof.
  unfold WaitingConsumerCount. intro Hr.
  destruct iq as [q b d n]. simpl in Hr.
  unfold IncrementConsumerCount, DecrementConsumerCount. simpl. split.
  - destruct (Z.ltb_spec n INT_MAX) as [Hlt | Hge]; [| discriminate].
    intro E. inversion E; subst. unfold with_count. simpl.
    destruct (Z.ltb_spec INT_MIN (n + 1)) as [_ | Hbad]; [| lia].
    f_equal. f_equal. lia.
  - destruct (Z.ltb_spec INT_MIN n) as [Hlt | Hge]; [| discriminate].
    intro E. inversion E; subst. unfold with_count. simpl.
    destruct (Z.ltb_spec (n - 1) INT_MAX) as [_ | Hbad]; [| lia].
    f_equal. f_equal. lia.
Qed.

End Merge.

(** * The statements at concrete inputs *)

(** The age example of the spec: with a delay of 100, payload 1 stamped 50
    is left alone by a [Dequeue] at 60 and merged by one at 200. *)
Example dequeue_at_60 :
  observed (Dequeue merge_always (steady 60) (queue_of [0; 1]%nat)
              three_payloads []) = Some ([1%nat], 0%nat, []).
Proof. reflexivity. Qed.

Example dequeue_at_200 :
  observed (Dequeue merge_always (steady 200) (queue_of [0; 1]%nat)
              three_payloads []) = Some ([], 0%nat, [1%nat]).
Proof. reflexivity. Qed.

(** The size example of the spec: 6 + 5 exceeds 10. *)
Example dequeue_too_big :
  observed (Dequeue merge_always (steady 200) (queue_of [0; 2]%nat)
              three_payloads []) = Some ([2%nat], 0%nat, []).
Proof. reflexivity. Qed.

(** ** A single [Dequeue] *)

Lemma Dequeue_defined_on_nonempty_witness :
  (exists iq' h' mp',
      Dequeue merge_always (steady 200) (queue_of [0; 1]%nat)
        three_payloads [] = Returned (iq', h', 0%nat, mp')) /\
  Dequeue merge_always (steady 200) (queue_of [0; 0]%nat)
    three_payloads [] = SelfLock /\
  Dequeue merge_always (steady 200) (queue_of []) three_payloads [] =
    UndefinedFront.
Proof.
  split; [| split].
  - destruct (Dequeue_defined_on_nonempty merge_always (steady 200)
                (queue_of [0; 1]%nat) three_payloads []) as [_ [_ H]].
    destruct (H 0%nat [1%nat] eq_refl) as [_ [Hret _]].
    apply Hret. intros [E | E]; [discriminate E | exact E].
  - destruct (Dequeue_defined_on_nonempty merge_always (steady 200)
                (queue_of [0; 0]%nat) three_payloads []) as [_ [_ H]].
    destruct (H 0%nat [0%nat] eq_refl) as [_ [_ [_ Hlock]]].
    apply (Hlock [] eq_refl); reflexivity.
  - destruct (Dequeue_defined_on_nonempty merge_always (steady 200)
                (queue_of []) three_payloads []) as [_ [H _]].
    apply H. reflexivity.
Defined.

(** A queue that holds payload 0 twice is not empty, and the [Dequeue]
    that dispatches payload 0 at clock reading 200 does not return: the
    payload left at the front is payload 0 again, unsaturated and aged past
    the delay, and the guard of line 81 asks for the exec mutex that the
    guard of line 65 holds.  The queue is the one that two [Enqueue] calls
    with payload 0 build. *)
Lemma Dequeue_defined_on_nonempty_counterexample :
  Enqueue (Enqueue (queue_of []) 0%nat) 0%nat = queue_of [0; 0]%nat /\
  payload_queue_ (queue_of [0; 0]%nat) <> [] /\
  Empty (queue_of [0; 0]%nat) = false /\
  Dequeue merge_always (steady 200) (queue_of [0; 0]%nat)
    three_payloads [] = SelfLock /\
  run merge_always (queue_of [], three_payloads)
    [CallEnqueue 0%nat; CallEnqueue 0%nat; CallDequeue (steady 200)] = None.
Proof.
  split; [reflexivity |].
  split; [discriminate |].
  split; [reflexivity |].
  split; vm_compute; reflexivity.
Qed.

Lemma saturation_blocks_merge_witness :
  payload_queue_ (queue_of [0; 1]%nat) = [0; 1]%nat /\
  Dequeue merge_always (steady 200) (queue_of [0; 1]%nat)
    (store_of [payload_of 6 true 0; payload_of 4 false 50]) [] =
  Returned (with_queue (queue_of [0; 1]%nat) [1%nat],
            SetState (store_of [payload_of 6 true 0; payload_of 4 false 50])
              0%nat EXECUTING,
            0%nat, []).
Proof.
  split; [reflexivity |].
  apply (proj1 (saturation_blocks_merge merge_always (steady 200)
                  (queue_of [0; 1]%nat)
                  (store_of [payload_of 6 true 0; payload_of 4 false 50])
                  [] 0%nat [1%nat] eq_refl)).
  reflexivity.
Defined.

Lemma merge_only_when_aged_witness :
  payload_queue_ (queue_of [0; 1]%nat) = [0; 1]%nat /\
  Dequeue merge_always (steady 60) (queue_of [0; 1]%nat) three_payloads [] =
  Returned (with_queue (queue_of [0; 1]%nat) [1%nat],
            SetState three_payloads 0%nat EXECUTING, 0%nat, []) /\
  exists iq' h' ms,
    Dequeue merge_always (steady 200) (queue_of [0; 1]%nat)
      three_payloads [] = Returned (iq', h', 0%nat, [] ++ ms) /\
    [1%nat] = ms ++ payload_queue_ iq' /\
    forall i m, nth_error ms i = Some m ->
      max_queue_delay_ns_ (queue_of [0; 1]%nat) <
        uint64_sub (to_uint64 (steady 200 i))
          (BatcherStartNs three_payloads m).
Proof.
  split; [reflexivity | split].
  - apply (proj2 (proj2 (proj2
             (merge_only_when_aged merge_always (steady 60)
                (queue_of [0; 1]%nat) three_payloads [] 0%nat
                [1%nat] eq_refl))) 1%nat [] eq_refl).
    vm_compute. discriminate.
  - destruct (merge_only_when_aged merge_always (steady 200)
                (queue_of [0; 1]%nat) three_payloads [] 0%nat
                [1%nat] eq_refl) as [Hall [Hret _]].
    destruct Hret as [iq' [h' [mp' E]]].
    { intros [H | H]; [discriminate H | exact H]. }
    destruct (Hall iq' h' 0%nat mp' E) as [ms [Hmp [Hq Hage]]].
    exists iq', h', ms. rewrite <- Hmp.
    split; [exact E | split; [exact Hq |]].
    intros i m Hi. exact (proj1 (Hage i m Hi)).
Defined.

Lemma merge_failure_recovered_witness :
  payload_queue_ (queue_of [0; 1]%nat) = [0; 1]%nat /\
  0%nat <> 1%nat /\
  merging_enabled (queue_of [0; 1]%nat) = true /\
  IsSaturated three_payloads 0%nat = false /\
  aged_out 100 (steady 200) 0%nat three_payloads 1%nat = true /\
  fits 10 0%nat three_payloads 1%nat = true /\
  snd (MergePayload merge_never
         (SetState (SetState three_payloads 0%nat EXECUTING) 1%nat EXECUTING)
         0%nat 1%nat) = false /\
  exists h',
    Dequeue merge_never (steady 200) (queue_of [0; 1]%nat) three_payloads [] =
    Returned (with_queue (queue_of [0; 1]%nat) [1%nat], h', 0%nat, []) /\
    GetState h' 1%nat = EXECUTING.
Proof.
  assert (Hne : 0%nat <> 1%nat) by discriminate.
  split; [reflexivity | split; [exact Hne |]].
  repeat (split; [reflexivity |]).
  apply (proj1 (merge_failure_recovered merge_never (steady 200)
                  (queue_of [0; 1]%nat) three_payloads [] 0%nat 1%nat []
                  eq_refl Hne eq_refl eq_refl eq_refl eq_refl eq_refl)).
Defined.

Lemma batch_size_cap_witness :
  payload_queue_ (queue_of [0; 2]%nat) = [0; 2]%nat /\
  payload_queue_ (queue_of [0; 1]%nat) = [0; 1]%nat /\
  0%nat <> 2%nat /\ 0%nat <> 1%nat /\
  (exists h',
      Dequeue merge_always (steady 200) (queue_of [0; 2]%nat)
        three_payloads [] =
      Returned (with_queue (queue_of [0; 2]%nat) [2%nat], h', 0%nat, [])) /\
  (exists iq' h' more,
      Dequeue merge_always (steady 200) (queue_of [0; 1]%nat)
        three_payloads [] = Returned (iq', h', 0%nat, [] ++ 1%nat :: more) /\
      [] = more ++ payload_queue_ iq').
Proof.
  assert (H02 : 0%nat <> 2%nat) by discriminate.
  assert (H01 : 0%nat <> 1%nat) by discriminate.
  split; [reflexivity | split; [reflexivity |]].
  split; [exact H02 | split; [exact H01 | split]].
  - apply (proj1 (batch_size_cap merge_always (steady 200)
                    (queue_of [0; 2]%nat) three_payloads [] 0%nat 2%nat []
                    eq_refl H02)).
    vm_compute. reflexivity.
  - destruct (batch_size_cap merge_always (steady 200)
                (queue_of [0; 1]%nat) three_payloads [] 0%nat 1%nat []
                eq_refl H01) as [_ [Hfit _]].
    destruct Hfit as [_ Hret];
      [vm_compute; discriminate | reflexivity ..|].
    apply Hret. intros [].
Defined.

(** With a dispatched payload of size [2^64 - 1] and a candidate of size
    2, the two sizes add up to more than [max_batch_size_ = 10] and the
    candidate is merged all the same: the [size_t] sum is 1. *)
Lemma batch_size_cap_counterexample :
  max_batch_size_ (queue_of [0; 1]%nat) <
    BatchSize (store_of [payload_of (2 ^ 64 - 1) false 0;
                         payload_of 2 false 50]) 0%nat +
    BatchSize (store_of [payload_of (2 ^ 64 - 1) false 0;
                         payload_of 2 false 50]) 1%nat /\
  observed (Dequeue merge_always (steady 200) (queue_of [0; 1]%nat)
              (store_of [payload_of (2 ^ 64 - 1) false 0;
                         payload_of 2 false 50]) []) =
  Some ([], 0%nat, [1%nat]).
Proof. split; vm_compute; reflexivity. Qed.

Lemma age_wraps_around_witness :
  payload_queue_ (queue_of [0; 1]%nat) = [0; 1]%nat /\
  to_uint64 (steady 10 0%nat) <
    BatcherStartNs (store_of [payload_of 6 false 0; payload_of 4 false 11])
      1%nat /\
  uint64_sub (to_uint64 (steady 10 0%nat))
    (BatcherStartNs (store_of [payload_of 6 false 0; payload_of 4 false 11])
       1%nat) = 2 ^ 64 - 1 /\
  exists iq' h' more,
    Dequeue merge_always (steady 10) (queue_of [0; 1]%nat)
      (store_of [payload_of 6 false 0; payload_of 4 false 11]) [] =
    Returned (iq', h', 0%nat, [] ++ 1%nat :: more) /\
    [] = more ++ payload_queue_ iq'.
Proof.
  split; [reflexivity | split; [reflexivity |]].
  pose proof (age_wraps_around merge_always (steady 10) (queue_of [0; 1]%nat)
                (store_of [payload_of 6 false 0; payload_of 4 false 11])
                [] 0%nat 1%nat [] eq_refl eq_refl) as [Hage [_ [Hmerged _]]].
  split; [exact Hage |].
  destruct Hmerged as [_ Hret];
    [reflexivity | discriminate | reflexivity ..|].
  apply Hret. intros [].
Defined.

(** A timestamp ahead of the clock does not make a payload eligible under
    every delay.  With [max_queue_delay_ns_ = 2^64 - 1] a payload stamped
    one nanosecond ahead has age [2^64 - 1], which is not above the delay;
    with a delay of 100 a payload stamped [2^64 - 1] at clock reading 0 has
    age 1.  Neither is merged. *)
Lemma age_wraps_around_counterexample :
  (to_uint64 (steady 10 0%nat) <
     BatcherStartNs (store_of [payload_of 6 false 0; payload_of 4 false 11])
       1%nat /\
   observed (Dequeue merge_always (steady 10)
               (mkInstanceQueue [0; 1]%nat 10 (2 ^ 64 - 1) 0)
               (store_of [payload_of 6 false 0; payload_of 4 false 11]) []) =
   Some ([1%nat], 0%nat, [])) /\
  (to_uint64 (steady 0 0%nat) <
     BatcherStartNs (store_of [payload_of 6 false 0;
                               payload_of 4 false (2 ^ 64 - 1)]) 1%nat /\
   uint64_sub (to_uint64 (steady 0 0%nat))
     (BatcherStartNs (store_of [payload_of 6 false 0;
                                payload_of 4 false (2 ^ 64 - 1)]) 1%nat) = 1 /\
   observed (Dequeue merge_always (steady 0) (queue_of [0; 1]%nat)
               (store_of [payload_of 6 false 0;
                          payload_of 4 false (2 ^ 64 - 1)]) []) =
   Some ([1%nat], 0%nat, [])).
Proof. repeat split; vm_compute; reflexivity. Qed.

(** Four payloads of sizes 1, 2, 3 and 4 stamped 0, 10, 20 and 30: at
    clock readings 200, 201, 202 the last three are all merged into the
    first by one call. *)
Example dequeue_chain :
  observed (Dequeue merge_always (ticking 200) (queue_of [0; 1; 2; 3]%nat)
              four_payloads []) = Some ([], 0%nat, [1; 2; 3]%nat).
Proof. reflexivity. Qed.

(** The same with a [MergePayload] that accepts only when both payloads
    are marked EXECUTING in the store of the turn. *)
Lemma greedy_chaining_witness :
  payload_queue_ (queue_of [0; 1; 2; 3]%nat) = 0%nat :: [1; 2; 3]%nat ++ [] /\
  merging_enabled (queue_of [0; 1; 2; 3]%nat) = true /\
  IsSaturated four_payloads 0%nat = false /\
  ~ In 0%nat [1; 2; 3]%nat /\
  BatchSize four_payloads 0%nat + batch_total four_payloads [1; 2; 3]%nat
    <= max_batch_size_ (queue_of [0; 1; 2; 3]%nat) /\
  merge_if_executing four_payloads 0%nat 1%nat = false /\
  exists iq' h',
    Dequeue merge_if_executing (ticking 200) (queue_of [0; 1; 2; 3]%nat)
      four_payloads [] = Returned (iq', h', 0%nat, [1; 2; 3]%nat) /\
    payload_queue_ iq' = [] /\
    (forall m, In m [1; 2; 3]%nat -> GetState h' m = EXECUTING) /\
    BatchSize h' 0%nat = 10.
Proof.
  assert (Hnotin : ~ In 0%nat [1; 2; 3]%nat).
  { intros [H | [H | [H | H]]]; try discriminate H. exact H. }
  assert (Hsum :
    BatchSize four_payloads 0%nat + batch_total four_payloads [1; 2; 3]%nat
      <= max_batch_size_ (queue_of [0; 1; 2; 3]%nat)).
  { vm_compute. discriminate. }
  split; [reflexivity | split; [reflexivity | split; [reflexivity |]]].
  split; [exact Hnotin | split; [exact Hsum | split; [reflexivity |]]].
  destruct (greedy_chaining merge_if_executing (ticking 200)
              (queue_of [0; 1; 2; 3]%nat) four_payloads
              [] 0%nat [1; 2; 3]%nat []) as [_ [_ [_ Hret]]].
  - reflexivity.
  - reflexivity.
  - reflexivity.
  - exact Hnotin.
  - intros c [H | [H | [H | H]]]; try (subst c; reflexivity). contradiction H.
  - intros [| [| [| i]]] c Hi; simpl in Hi;
      try (injection Hi as <-; vm_compute; reflexivity).
    destruct i; discriminate Hi.
  - exact Hsum.
  - intros [| [| [| i]]] c Hi; simpl in Hi;
      try (injection Hi as <-; vm_compute; reflexivity).
    destruct i; discriminate Hi.
  - destruct Hret as [iq' [h' [more [E [Hq [Hst Hsize]]]]]]; [intros [] |].
    symmetry in Hq. apply app_eq_nil in Hq. destruct Hq as [-> Hq].
    exists iq', h'.
    split; [exact E | split; [exact Hq | split; [exact Hst |]]].
    rewrite Hsize by reflexivity. reflexivity.
Defined.

(** ** Runs of calls *)

Lemma exactly_once_dispatch_witness :
  exists w',
    run merge_always (InstanceQueue_new 10 100, three_payloads)
      [CallEnqueue 0%nat; CallEnqueue 1%nat; CallEnqueue 2%nat;
       CallDequeue (steady 200); CallDequeue (steady 300)] =
    Some (w', [RetVoid; RetVoid; RetVoid;
               RetDequeue 0%nat [1%nat]; RetDequeue 2%nat []]) /\
    dispatched [RetVoid; RetVoid; RetVoid;
                RetDequeue 0%nat [1%nat]; RetDequeue 2%nat []] =
    enqueued [CallEnqueue 0%nat; CallEnqueue 1%nat; CallEnqueue 2%nat;
              CallDequeue (steady 200); CallDequeue (steady 300)].
Proof.
  assert (E : { w' |
    run merge_always (InstanceQueue_new 10 100, three_payloads)
      [CallEnqueue 0%nat; CallEnqueue 1%nat; CallEnqueue 2%nat;
       CallDequeue (steady 200); CallDequeue (steady 300)] =
    Some (w', [RetVoid; RetVoid; RetVoid;
               RetDequeue 0%nat [1%nat]; RetDequeue 2%nat []]) /\
    payload_queue_ (fst w') = [] }).
  { eexists. split; vm_compute; reflexivity. }
  destruct E as [w' [E Hq]]. exists w'. split; [exact E |].
  apply (proj2 (proj2 (proj2 (exactly_once_dispatch merge_always _ _ _ _ E))));
    [reflexivity | exact Hq].
Defined.

Lemma fifo_without_merge_witness :
  payload_queue_ (InstanceQueue_new 10 0) = [] /\
  (max_queue_delay_ns_ (InstanceQueue_new 10 0) = 0 \/
   max_batch_size_ (InstanceQueue_new 10 0) <= 1) /\
  length [steady 200; steady 300; steady 400] = length [0; 1; 2]%nat /\
  exists h',
    run merge_always (InstanceQueue_new 10 0, three_payloads)
      ([CallEnqueue 0%nat; CallEnqueue 1%nat; CallEnqueue 2%nat] ++
       [CallDequeue (steady 200); CallDequeue (steady 300);
        CallDequeue (steady 400)]) =
    Some ((InstanceQueue_new 10 0, h'),
          [RetVoid; RetVoid; RetVoid] ++
          [RetDequeue 0%nat []; RetDequeue 1%nat []; RetDequeue 2%nat []]).
Proof.
  split; [reflexivity | split; [left; reflexivity | split; [reflexivity |]]].
  apply (proj1 (fifo_without_merge merge_always (InstanceQueue_new 10 0)
                  three_payloads [0; 1; 2]%nat
                  [steady 200; steady 300; steady 400]
                  eq_refl (or_introl eq_refl) eq_refl)).
Defined.

Lemma consumer_count_is_net_witness :
  exists w',
    run merge_always (InstanceQueue_new 10 100, three_payloads)
      [CallIncrementConsumerCount; CallIncrementConsumerCount;
       CallDecrementConsumerCount; CallWaitingConsumerCount] =
    Some (w', [RetVoid; RetVoid; RetVoid; RetCount 1]) /\
    WaitingConsumerCount (fst w') =
    WaitingConsumerCount (InstanceQueue_new 10 100) +
    net_consumers [CallIncrementConsumerCount; CallIncrementConsumerCount;
                   CallDecrementConsumerCount; CallWaitingConsumerCount].
Proof.
  assert (E : { w' |
    run merge_always (InstanceQueue_new 10 100, three_payloads)
      [CallIncrementConsumerCount; CallIncrementConsumerCount;
       CallDecrementConsumerCount; CallWaitingConsumerCount] =
    Some (w', [RetVoid; RetVoid; RetVoid; RetCount 1]) }).
  { eexists. vm_compute. reflexivity. }
  destruct E as [w' E]. exists w'. split; [exact E |].
  apply (proj1 (consumer_count_is_net merge_always _ _ _ _ E)).
Defined.

(** A fresh queue and one [DecrementConsumerCount]: the call returns and
    [WaitingConsumerCount] then reports -1. *)
Lemma consumer_count_counterexample :
  exists w',
    run merge_always (InstanceQueue_new 10 100, three_payloads)
      [CallDecrementConsumerCount; CallWaitingConsumerCount] =
    Some (w', [RetVoid; RetCount (-1)]) /\
    WaitingConsumerCount (fst w') < 0.
Proof. eexists. split; vm_compute; reflexivity. Qed.

(** ** Further properties *)

(** Payload 0 of size 6 and payload 2 of size 5, both stamped early: at
    200 the second has aged past the delay of 100 and does not fit. *)
Lemma unfit_candidate_marked_executing_witness :
  payload_queue_ (queue_of [0; 2]%nat) = [0; 2]%nat /\
  0%nat <> 2%nat /\
  merging_enabled (queue_of [0; 2]%nat) = true /\
  IsSaturated three_payloads 0%nat = false /\
  aged_out 100 (steady 200) 0%nat three_payloads 2%nat = true /\
  fits 10 0%nat three_payloads 2%nat = false /\
  Dequeue merge_always (steady 200) (queue_of [0; 2]%nat) three_payloads [] =
    Returned (with_queue (queue_of [0; 2]%nat) [2%nat],
              SetState (SetState three_payloads 0%nat EXECUTING)
                2%nat EXECUTING,
              0%nat, []) /\
  GetState (SetState (SetState three_payloads 0%nat EXECUTING) 2%nat EXECUTING)
    2%nat = EXECUTING.
Proof.
  assert (Hne : 0%nat <> 2%nat) by discriminate.
  split; [reflexivity | split; [exact Hne |]].
  repeat (split; [reflexivity |]).
  apply (unfit_candidate_marked_executing merge_always (steady 200)
           (queue_of [0; 2]%nat) three_payloads [] 0%nat 2%nat []);
    reflexivity || exact Hne.
Defined.

Lemma returned_payloads_are_executing_witness :
  payload_queue_ (queue_of [0; 1; 2]%nat) = [0; 1; 2]%nat /\
  exists iq' h' ms,
    Dequeue merge_always (steady 200) (queue_of [0; 1; 2]%nat)
      three_payloads [] = Returned (iq', h', 0%nat, [] ++ ms) /\
    [1; 2]%nat = ms ++ payload_queue_ iq' /\
    GetState h' 0%nat = EXECUTING /\
    forall m, In m ms -> GetState h' m = EXECUTING.
Proof.
  split; [reflexivity |].
  destruct (returned_payloads_are_executing merge_always (steady 200)
              (queue_of [0; 1; 2]%nat) three_payloads [] 0%nat [1; 2]%nat
              eq_refl) as [Hall Hret].
  destruct Hret as [iq' [h' [mp' E]]].
  { intros [H | [H | H]]; [discriminate H | discriminate H | exact H]. }
  destruct (Hall iq' h' 0%nat mp' E) as [ms [_ [Hmp H]]].
  exists iq', h', ms. rewrite <- Hmp. split; [exact E | exact H].
Defined.

Lemma Dequeue_state_frame_witness :
  payload_queue_ (queue_of [0; 1; 2]%nat) = [0; 1; 2]%nat /\
  exists iq' h' ms,
    Dequeue merge_always (steady 200) (queue_of [0; 1; 2]%nat)
      three_payloads [] = Returned (iq', h', 0%nat, [] ++ ms) /\
    [1; 2]%nat = ms ++ payload_queue_ iq' /\
    forall x, GetState h' x <> GetState three_payloads x ->
              GetState h' x = EXECUTING /\
              (x = 0%nat \/ In x ms \/
               hd_error (payload_queue_ iq') = Some x).
Proof.
  split; [reflexivity |].
  destruct (Dequeue_state_frame merge_always (steady 200)
              (queue_of [0; 1; 2]%nat) three_payloads [] 0%nat [1; 2]%nat
              eq_refl) as [Hall Hret].
  destruct Hret as [iq' [h' [mp' E]]].
  { intros [H | [H | H]]; [discriminate H | discriminate H | exact H]. }
  destruct (Hall iq' h' 0%nat mp' E) as [ms [_ [Hmp H]]].
  exists iq', h', ms. rewrite <- Hmp. split; [exact E | exact H].
Defined.

Lemma merged_batch_within_limit_witness :
  payload_queue_ (queue_of [0; 1; 2]%nat) = [0; 1; 2]%nat /\
  exists iq' h' ms,
    Dequeue merge_always (steady 200) (queue_of [0; 1; 2]%nat)
      three_payloads [] = Returned (iq', h', 0%nat, [] ++ ms) /\
    [1; 2]%nat = ms ++ payload_queue_ iq' /\
    (ms <> [] ->
     BatchSize h' 0%nat <= max_batch_size_ (queue_of [0; 1; 2]%nat)) /\
    (ms = [] -> BatchSize h' 0%nat = BatchSize three_payloads 0%nat).
Proof.
  split; [reflexivity |].
  destruct (merged_batch_within_limit merge_always (steady 200)
              (queue_of [0; 1; 2]%nat) three_payloads [] 0%nat [1; 2]%nat
              eq_refl) as [Hall Hret].
  destruct Hret as [iq' [h' [mp' E]]].
  { intros [H | [H | H]]; [discriminate H | discriminate H | exact H]. }
  destruct (Hall iq' h' 0%nat mp' E) as [ms [_ [Hmp H]]].
  exists iq', h', ms. rewrite <- Hmp. split; [exact E | exact H].
Defined.

Lemma Dequeue_merges_while_it_can_witness :
  payload_queue_ (queue_of [0; 1; 2]%nat) = [0; 1; 2]%nat /\
  merging_enabled (queue_of [0; 1; 2]%nat) = true /\
  IsSaturated three_payloads 0%nat = false /\
  exists iq' h' ms,
    Dequeue merge_always (steady 200) (queue_of [0; 1; 2]%nat)
      three_payloads [] = Returned (iq', h', 0%nat, [] ++ ms) /\
    [1; 2]%nat = ms ++ payload_queue_ iq' /\
    forall c rest,
      payload_queue_ iq' = c :: rest ->
      aged_out (max_queue_delay_ns_ (queue_of [0; 1; 2]%nat)) (steady 200)
        (length ms) three_payloads c = false \/
      fits (max_batch_size_ (queue_of [0; 1; 2]%nat)) 0%nat h' c = false \/
      snd (MergePayload merge_always h' 0%nat c) = false.
Proof.
  repeat (split; [reflexivity |]).
  destruct (Dequeue_merges_while_it_can merge_always (steady 200)
              (queue_of [0; 1; 2]%nat) three_payloads [] 0%nat [1; 2]%nat
              eq_refl eq_refl eq_refl) as [Hall Hret].
  destruct Hret as [iq' [h' [mp' E]]].
  { intros [H | [H | H]]; [discriminate H | discriminate H | exact H]. }
  destruct (Hall iq' h' 0%nat mp' E) as [ms [_ [Hmp H]]].
  exists iq', h', ms. rewrite <- Hmp. split; [exact E | exact H].
Defined.

(** The three payloads go in, one call hands back two of them. *)
Example dequeue_two_of_three :
  observed (Dequeue merge_always (steady 200) (queue_of [0; 1; 2]%nat)
              three_payloads []) = Some ([2%nat], 0%nat, [1%nat]).
Proof. reflexivity. Qed.

Lemma Size_accounting_witness :
  exists w',
    run merge_always (InstanceQueue_new 10 100, three_payloads)
      [CallEnqueue 0%nat; CallEnqueue 1%nat; CallEnqueue 2%nat;
       CallDequeue (steady 200); CallSize] =
    Some (w', [RetVoid; RetVoid; RetVoid; RetDequeue 0%nat [1%nat];
               RetSize 1]) /\
    Size (fst w') +
    Z.of_nat (length (dispatched [RetVoid; RetVoid; RetVoid;
                                  RetDequeue 0%nat [1%nat]; RetSize 1])) =
    Size (InstanceQueue_new 10 100) +
    Z.of_nat (length (enqueued [CallEnqueue 0%nat; CallEnqueue 1%nat;
                                CallEnqueue 2%nat; CallDequeue (steady 200);
                                CallSize])).
Proof.
  assert (E : { w' |
    run merge_always (InstanceQueue_new 10 100, three_payloads)
      [CallEnqueue 0%nat; CallEnqueue 1%nat; CallEnqueue 2%nat;
       CallDequeue (steady 200); CallSize] =
    Some (w', [RetVoid; RetVoid; RetVoid; RetDequeue 0%nat [1%nat];
               RetSize 1]) }).
  { eexists. vm_compute. reflexivity. }
  destruct E as [w' E]. exists w'. split; [exact E |].
  apply (proj1 (Size_accounting merge_always _ _ _ _ E)).
Defined.

Lemma Enqueue_Dequeue_round_trip_witness :
  Empty (InstanceQueue_new 10 100) = true /\
  Dequeue merge_always (steady 200) (Enqueue (InstanceQueue_new 10 100) 1%nat)
    three_payloads [] =
  Returned (InstanceQueue_new 10 100, SetState three_payloads 1%nat EXECUTING,
            1%nat, []).
Proof.
  split; [reflexivity |].
  apply (Enqueue_Dequeue_round_trip merge_always (steady 200)
           (InstanceQueue_new 10 100) three_payloads [] 1%nat).
  reflexivity.
Defined.

Lemma limits_are_fixed_witness :
  exists w',
    run merge_always (InstanceQueue_new 10 100, three_payloads)
      [CallEnqueue 0%nat; CallEnqueue 1%nat; CallDequeue (steady 200);
       CallIncrementConsumerCount] =
    Some (w', [RetVoid; RetVoid; RetDequeue 0%nat [1%nat]; RetVoid]) /\
    max_batch_size_ (fst w') = 10 /\ max_queue_delay_ns_ (fst w') = 100.
Proof.
  assert (E : { w' |
    run merge_always (InstanceQueue_new 10 100, three_payloads)
      [CallEnqueue 0%nat; CallEnqueue 1%nat; CallDequeue (steady 200);
       CallIncrementConsumerCount] =
    Some (w', [RetVoid; RetVoid; RetDequeue 0%nat [1%nat]; RetVoid]) }).
  { eexists. vm_compute. reflexivity. }
  destruct E as [w' E]. exists w'. split; [exact E |].
  destruct (limits_are_fixed merge_always 10 100 three_payloads _ _ _ E)
    as [_ [_ [Hb Hd]]].
  split; [apply Hb | apply Hd]; split;
    reflexivity || (vm_compute; discriminate).
Defined.

Lemma WaitForConsumer_returns_iff_witness :
  exists w',
    run merge_always (InstanceQueue_new 10 100, three_payloads)
      [CallIncrementConsumerCount; CallIncrementConsumerCount;
       CallDecrementConsumerCount] =
    Some (w', [RetVoid; RetVoid; RetVoid]) /\
    call merge_always w' CallWaitForConsumer = Some (w', RetVoid).
Proof.
  assert (E : { w' |
    run merge_always (InstanceQueue_new 10 100, three_payloads)
      [CallIncrementConsumerCount; CallIncrementConsumerCount;
       CallDecrementConsumerCount] =
    Some (w', [RetVoid; RetVoid; RetVoid]) }).
  { eexists. vm_compute. reflexivity. }
  destruct E as [w' E]. exists w'. split; [exact E |].
  apply (proj1 (WaitForConsumer_returns_iff merge_always _ _ _ _ E)).
  reflexivity.
Defined.

Lemma Increment_Decrement_round_trip_witness :
  INT_MIN <= WaitingConsumerCount (InstanceQueue_new 10 100) <= INT_MAX /\
  IncrementConsumerCount (InstanceQueue_new 10 100) =
    Some (with_count (InstanceQueue_new 10 100) 1) /\
  DecrementConsumerCount (with_count (InstanceQueue_new 10 100) 1) =
    Some (InstanceQueue_new 10 100).
Proof.
  assert (Hr : INT_MIN <= WaitingConsumerCount (InstanceQueue_new 10 100)
               <= INT_MAX) by (split; vm_compute; discriminate).
  split; [exact Hr | split; [reflexivity |]].
  apply (proj1 (Increment_Decrement_round_trip (InstanceQueue_new 10 100)
                  (with_count (InstanceQueue_new 10 100) 1) Hr)).
  reflexivity.
Defined.
